(** * Board game rating predictor: ALS completion and neighbour estimation

    A shallow embedding of the notebook
    [JMB_recommendation_engine_method_3.1_v1.ipynb]: the weighted
    alternating-least-squares completion [do_ALS], the neighbour search
    [estimate_ratings], and the top-level cell that pivots the ratings,
    completes and clamps the matrix, embeds the users and estimates the
    test ratings.

    Numbers.  The notebook computes in float64.  Here a number is an
    element of an arbitrary ordered field [R] and a missing value (NaN)
    is [None]; rounding, overflow and NaN produced by arithmetic are not
    modelled.  Python exceptions are values of [exn].

    Library calls.  [np.linalg.solve] is the inverse applied to the right
    hand side and raises on a singular matrix.  [np.argsort] and
    [TruncatedSVD.fit_transform] are parameters of the functions that call
    them, constrained by [argsort_spec] and [fit_transform_spec]. *)

From HB Require Import structures.
From mathcomp Require Import boot order algebra.

Set Implicit Arguments.
Unset Strict Implicit.
Unset Printing Implicit Defensive.

Import Order.TTheory GRing.Theory Num.Theory.
Local Open Scope ring_scope.

(** ** Exceptions *)

Inductive exn : Type :=
  | KeyError
  | IndexError
  | ValueError
  | LinAlgError
  | UnboundLocalError.

Inductive result (T : Type) : Type :=
  | Ok of T
  | Raise of exn.

Arguments Ok {T} _.
Arguments Raise {T} _.

Definition bind (T U : Type) (c : result T) (k : T -> result U) : result U :=
  match c with
  | Ok x => k x
  | Raise e => Raise e
  end.

Notation "x <~ c ;; k" := (bind c (fun x => k))
  (at level 61, c at next level, right associativity).

Definition is_ok (T : Type) (c : result T) : bool :=
  if c is Ok _ then true else false.

(** A [for] loop that appends one value per element. *)
Fixpoint mapM (T U : Type) (f : T -> result U) (s : seq T) : result (seq U) :=
  if s is x :: s' then
    y <~ f x ;; ys <~ mapM f s' ;; Ok (y :: ys)
  else Ok [::].

(** A [for] loop that threads a state through its body. *)
Fixpoint foldM (T S : Type) (f : S -> T -> result S) (a : S) (s : seq T)
  : result S :=
  if s is x :: s' then a' <~ f a x ;; foldM f a' s' else Ok a.

(** ** Weighted alternating least squares *)

Section ALS.

Variable R : realFieldType.
Variables m n : nat.

(** [np.sum((W * (Q - np.dot(X, Y)))**2)] *)
Definition get_error (k : nat) (Q : 'M[R]_(m, n)) (X : 'M[R]_(m, k))
    (Y : 'M[R]_(k, n)) (W : 'M[R]_(m, n)) : R :=
  \sum_i \sum_j (W i j * (Q i j - (X *m Y) i j)) ^+ 2.

(** [W = Q > 0.5], turned into 1.0 and 0.0. *)
Definition weights (Q : 'M[R]_(m, n)) : 'M[R]_(m, n) :=
  \matrix_(i, j) (if 2%:R^-1 < Q i j then 1 else 0).

(** [np.linalg.solve(A, B)]: the solution of [A x = B]; a singular [A]
    raises [LinAlgError]. *)
Definition solve (k r : nat) (A : 'M[R]_k) (B : 'M[R]_(k, r))
  : result 'M[R]_(k, r) :=
  if A \in unitmx then Ok (invmx A *m B) else Raise LinAlgError.

(** [X[u] = x] and [Y[:, i] = y]: assignment to one row, one column. *)
Definition set_row (k : nat) (X : 'M[R]_(m, k)) (u : 'I_m) (x : 'rV[R]_k)
  : 'M[R]_(m, k) :=
  \matrix_(i, j) (if i == u then x 0 j else X i j).

Definition set_col (k : nat) (Y : 'M[R]_(k, n)) (i : 'I_n) (y : 'cV[R]_k)
  : 'M[R]_(k, n) :=
  \matrix_(a, j) (if j == i then y a 0 else Y a j).

Section Iteration.

Variable k : nat.
Variable lambda_ : R.
Variables (Q W : 'M[R]_(m, n)).

(** The system solved for user row [u]; [Wu] is row [u] of [W]. *)
Definition user_lhs (Y : 'M[R]_(k, n)) (u : 'I_m) : 'M[R]_k :=
  Y *m (diag_mx (row u W) *m Y^T) + lambda_ *: 1%:M.

Definition user_rhs (Y : 'M[R]_(k, n)) (u : 'I_m) : 'cV[R]_k :=
  Y *m (diag_mx (row u W) *m (row u Q)^T).

(** The system solved for item column [i]; [Wi] is row [i] of [W.T]. *)
Definition item_lhs (X : 'M[R]_(m, k)) (i : 'I_n) : 'M[R]_k :=
  X^T *m (diag_mx (row i W^T) *m X) + lambda_ *: 1%:M.

Definition item_rhs (X : 'M[R]_(m, k)) (i : 'I_n) : 'cV[R]_k :=
  X^T *m (diag_mx (row i W^T) *m col i Q).

(** [for u, Wu in enumerate(W): X[u] = np.linalg.solve(...).T] *)
Definition update_user (Y : 'M[R]_(k, n)) (X : 'M[R]_(m, k)) (u : 'I_m)
  : result 'M[R]_(m, k) :=
  x <~ solve (user_lhs Y u) (user_rhs Y u) ;; Ok (set_row X u x^T).

Definition update_users (Y : 'M[R]_(k, n)) (X : 'M[R]_(m, k))
  : result 'M[R]_(m, k) :=
  foldM (update_user Y) X (enum 'I_m).

(** [for i, Wi in enumerate(W.T): Y[:,i] = np.linalg.solve(...)] *)
Definition update_item (X : 'M[R]_(m, k)) (Y : 'M[R]_(k, n)) (i : 'I_n)
  : result 'M[R]_(k, n) :=
  y <~ solve (item_lhs X i) (item_rhs X i) ;; Ok (set_col Y i y).

Definition update_items (X : 'M[R]_(m, k)) (Y : 'M[R]_(k, n))
  : result 'M[R]_(k, n) :=
  foldM (update_item X) Y (enum 'I_n).

(** One pass of the weighted loop body: all user rows, then all item
    columns. *)
Definition weighted_step (XY : 'M[R]_(m, k) * 'M[R]_(k, n))
  : result ('M[R]_(m, k) * 'M[R]_(k, n)) :=
  X' <~ update_users XY.2 XY.1 ;;
  Y' <~ update_items X' XY.2 ;;
  Ok (X', Y').

(** One pass of the unweighted loop body. *)
Definition unweighted_step (XY : 'M[R]_(m, k) * 'M[R]_(k, n))
  : result ('M[R]_(m, k) * 'M[R]_(k, n)) :=
  Xt <~ solve (XY.2 *m XY.2^T + lambda_ *: 1%:M) (XY.2 *m Q^T) ;;
  let X' := Xt^T in
  Y' <~ solve (X'^T *m X' + lambda_ *: 1%:M) (X'^T *m Q) ;;
  Ok (X', Y').

(** [for ii in range(n_iterations): <step>; errors.append(get_error(...))].
    The [print] calls inside the loop only read values that are bound. *)
Fixpoint als_loop
    (step : 'M[R]_(m, k) * 'M[R]_(k, n) ->
            result ('M[R]_(m, k) * 'M[R]_(k, n)))
    (n_iterations : nat) (XY : 'M[R]_(m, k) * 'M[R]_(k, n))
    (errors : seq R) : result ('M[R]_(m, k) * 'M[R]_(k, n) * seq R) :=
  if n_iterations is N.+1 then
    XY' <~ step XY ;;
    als_loop step N XY' (rcons errors (get_error Q XY'.1 XY'.2 W))
  else Ok (XY, errors).

End Iteration.

(** [do_ALS].  [rand_X] and [rand_Y] are the two arrays that
    [np.random.rand] returns.  After the weighted loop the verbose branch
    prints the loop variable [ii], which is unbound when the loop body
    never ran. *)
Definition do_ALS (Q : 'M[R]_(m, n)) (n_iterations : nat) (lambda_ : R)
    (n_factors : nat) (weighted verbose : bool)
    (rand_X : 'M[R]_(m, n_factors)) (rand_Y : 'M[R]_(n_factors, n))
  : result ('M[R]_(m, n) * 'M[R]_(m, n_factors) * 'M[R]_(n_factors, n)
            * seq R) :=
  let W := weights Q in
  let X := 5%:R *: rand_X in
  let Y := 5%:R *: rand_Y in
  if ~~ weighted then
    r <~ als_loop Q W (unweighted_step lambda_ Q) n_iterations (X, Y) [::] ;;
    Ok (r.1.1 *m r.1.2, r.1.1, r.1.2, r.2)
  else
    r <~ als_loop Q W (weighted_step lambda_ Q W) n_iterations (X, Y) [::] ;;
    if verbose && (n_iterations == 0%N) then Raise UnboundLocalError
    else Ok (r.1.1 *m r.1.2, r.1.1, r.1.2, r.2).

End ALS.

(** ** What the solves of [do_ALS] establish *)

Section ALSSpec.

Variable R : realFieldType.

(** Positive semidefinite: [v A v^T >= 0] for every row vector [v]. *)
Definition psd (k : nat) (A : 'M[R]_k) : Prop :=
  forall v : 'rV[R]_k, 0 <= (v *m A *m v^T) 0 0.

Variables (m n k : nat) (lam : R) (Q W : 'M[R]_(m, n)).

(** [XY'] is [XY] after one pass of the weighted loop body.  With [Wu]
    row [u] of [W] and [Qu] row [u] of [Q], row [u] of the new [X],
    transposed, solves [(Y diag(Wu) Y^T + lambda I) x = Y diag(Wu) Qu^T]
    for the old [Y]; with [Wi] column [i] of [W] and [Qi] column [i] of
    [Q], column [i] of the new [Y] solves
    [(X^T diag(Wi) X + lambda I) y = X^T diag(Wi) Qi] for the new [X].
    Both matrices are invertible, so each solution is the only one. *)
Definition weighted_update (XY XY' : 'M[R]_(m, k) * 'M[R]_(k, n)) : Prop :=
  (forall u : 'I_m,
     XY.2 *m (diag_mx (row u W) *m XY.2^T) + lam *: 1%:M \in unitmx
     /\ (XY.2 *m (diag_mx (row u W) *m XY.2^T) + lam *: 1%:M)
          *m (row u XY'.1)^T
        = XY.2 *m (diag_mx (row u W) *m (row u Q)^T))
  /\ (forall i : 'I_n,
     XY'.1^T *m (diag_mx (col i W)^T *m XY'.1) + lam *: 1%:M \in unitmx
     /\ (XY'.1^T *m (diag_mx (col i W)^T *m XY'.1) + lam *: 1%:M)
          *m col i XY'.2
        = XY'.1^T *m (diag_mx (col i W)^T *m col i Q)).

(** [XY'] is [XY] after one pass of the unweighted loop body: the new
    [X], transposed, solves [(Y Y^T + lambda I) X^T = Y Q^T] for the old
    [Y], and the new [Y] solves [(X^T X + lambda I) Y = X^T Q] for the
    new [X]. *)
Definition unweighted_update (XY XY' : 'M[R]_(m, k) * 'M[R]_(k, n)) : Prop :=
  [/\ XY.2 *m XY.2^T + lam *: 1%:M \in unitmx,
      (XY.2 *m XY.2^T + lam *: 1%:M) *m XY'.1^T = XY.2 *m Q^T,
      XY'.1^T *m XY'.1 + lam *: 1%:M \in unitmx
    & (XY'.1^T *m XY'.1 + lam *: 1%:M) *m XY'.2 = XY'.1^T *m Q].

End ALSSpec.

(** ** The cost that the weighted passes work on *)

Section ALSCost.

Variable R : realFieldType.

(** The sum of the squares of the entries. *)
Definition sqnorm (a b : nat) (A : 'M[R]_(a, b)) : R :=
  \sum_i \sum_j A i j ^+ 2.

(** The weighted squared error of [get_error] plus [lambda] times the
    squares of the entries of both factors. *)
Definition objective (m n k : nat) (lam : R) (Q W : 'M[R]_(m, n))
    (X : 'M[R]_(m, k)) (Y : 'M[R]_(k, n)) : R :=
  get_error Q X Y W + lam * (sqnorm X + sqnorm Y).

(** The share of one user in that cost, as a 1 x 1 matrix: [x] is the
    row of factors of the user, [q] its row of [Q] and [w] its row of
    weights. *)
Definition row_cost (n k : nat) (lam : R) (Y : 'M[R]_(k, n))
    (w q : 'rV[R]_n) (x : 'rV[R]_k) : 'M[R]_1 :=
  (q - x *m Y) *m diag_mx w *m (q - x *m Y)^T + lam *: (x *m x^T).

End ALSCost.

(** ** Data frames *)

(** A row of the ratings table and a row of the test table.  User and
    game identifiers are natural numbers. *)
Definition userID (T : Type) (r : nat * nat * T) : nat := r.1.1.
Definition gameID (T : Type) (r : nat * nat * T) : nat := r.1.2.
Definition rating (T : Type) (r : nat * nat * T) : T := r.2.

Definition rec_userID (rec : nat * nat) : nat := rec.1.
Definition rec_gameID (rec : nat * nat) : nat := rec.2.

(** A frame: row labels, column labels and the cells, row by row.
    [None] is NaN. *)
Record DataFrame (T : Type) : Type := mkDataFrame {
  df_index : seq nat;
  df_columns : seq nat;
  df_values : seq (seq (option T))
}.

Section Frames.

Variable R : realFieldType.

Definition map_cells (f : option R -> option R) (df : DataFrame R)
  : DataFrame R :=
  mkDataFrame (df_index df) (df_columns df)
    [seq [seq f c | c <- r] | r <- df_values df].

(** The cell at integer position [(i, j)]. *)
Definition iat (df : DataFrame R) (i j : nat) : option R :=
  nth None (nth [::] (df_values df) i) j.

(** The unique labels of a column of the table, in ascending order. *)
Definition labels (s : seq nat) : seq nat := sort leq (undup s).

Definition lookup_rating (rows : seq (nat * nat * R)) (u g : nat)
  : option R :=
  if [seq r <- rows | (userID r == u) && (gameID r == g)] is r :: _
  then Some (rating r) else None.

(** [rows.pivot(index="userID", columns="gameID", values="rating")]:
    two rows for one (user, game) pair raise [ValueError]. *)
Definition pivot (rows : seq (nat * nat * R)) : result (DataFrame R) :=
  if ~~ uniq [seq (userID r, gameID r) | r <- rows] then Raise ValueError
  else
    let idx := labels [seq userID r | r <- rows] in
    let cols := labels [seq gameID r | r <- rows] in
    Ok (mkDataFrame idx cols
          [seq [seq lookup_rating rows u g | g <- cols] | u <- idx]).

(** [df.fillna(c).values] *)
Definition fillna_values (c : R) (df : DataFrame R)
  : 'M[R]_(size (df_index df), size (df_columns df)) :=
  \matrix_(i, j) odflt c (iat df i j).

(** [pd.DataFrame(M, index=idx, columns=cols)] *)
Definition frame_of_matrix (idx cols : seq nat)
    (M : 'M[R]_(size idx, size cols)) : DataFrame R :=
  mkDataFrame idx cols
    [seq [seq Some (M i j) | j <- enum 'I_(size cols)]
    | i <- enum 'I_(size idx)].

(** [clip_upper] and [clip_lower] leave NaN cells as they are. *)
Definition clip_upper (t : R) (df : DataFrame R) : DataFrame R :=
  map_cells (omap (fun v => if t < v then t else v)) df.

Definition clip_lower (t : R) (df : DataFrame R) : DataFrame R :=
  map_cells (omap (fun v => if v < t then t else v)) df.

(** The observed mask of a frame: 1 where a rating exists, 0 where the
    cell is NaN. *)
Definition observed_mask (df : DataFrame R)
  : 'M[R]_(size (df_index df), size (df_columns df)) :=
  \matrix_(i, j) (if iat df i j is Some _ then 1 else 0).

(** Every cell of the frame satisfies [p]. *)
Definition all_cells (p : pred (option R)) (df : DataFrame R) : bool :=
  all (all p) (df_values df).

(** The frame has one row of cells per row label and one cell per column
    label in each row. *)
Definition well_shaped (df : DataFrame R) : bool :=
  (size (df_values df) == size (df_index df))
  && all (fun r => size r == size (df_columns df)) (df_values df).

(** [idx.get_loc(key)] *)
Definition get_loc (idx : seq nat) (key : nat) : result nat :=
  if key \in idx then Ok (index key idx) else Raise KeyError.

(** [df[g]]: the column labelled [g], a series over the row labels. *)
Definition getitem (df : DataFrame R) (g : nat) : result (seq (option R)) :=
  if g \in df_columns df then
    Ok [seq nth None r (index g (df_columns df)) | r <- df_values df]
  else Raise KeyError.

(** [series[user]] for a series over the row labels [idx]. *)
Definition series_get (idx : seq nat) (s : seq (option R)) (user : nat)
  : result (option R) :=
  if user \in idx then Ok (nth None s (index user idx)) else Raise KeyError.

(** [df[game][user]] when both labels exist. *)
Definition loc (df : DataFrame R) (user game : nat) : option R :=
  iat df (index user (df_index df)) (index game (df_columns df)).

(** [idx[ind]]: the labels at an array of positions. *)
Definition take_labels (idx : seq nat) (ind : seq nat) : result (seq nat) :=
  mapM (fun i => if (i < size idx)%N then Ok (nth 0%N idx i)
                 else Raise IndexError) ind.

End Frames.

(** ** Neighbour estimation *)

Section Estimate.

Variable R : realFieldType.

(** [np.argsort], a parameter: the positions of [keys], ordered so that
    the keys ascend. *)
Variable argsort : seq R -> seq nat.

Definition key_leq (keys : seq R) : rel nat :=
  fun i j => nth 0 keys i <= nth 0 keys j.

(** [coords[userindex, :]] *)
Definition row_at (coords : seq (seq R)) (userindex : nat)
  : result (seq R) :=
  if (userindex < size coords)%N then Ok (nth [::] coords userindex)
  else Raise IndexError.

(** The square of the Euclidean distance between two points. *)
Definition sqdist (a b : seq R) : R :=
  foldr (fun p acc => (p.1 - p.2) ^+ 2 + acc) 0 (zip a b).

(** [cdist(target, coords)], squared.  The distances are only compared
    with each other by [argsort], and the square root is increasing on
    non-negative numbers, so the ranking of the squares is the ranking
    of the distances. *)
Definition cdist (targetcoord : seq R) (coords : seq (seq R)) : seq R :=
  [seq sqdist targetcoord c | c <- coords].

(** [np.mean(ratings)]: NaN for the empty list. *)
Definition mean (ratings : seq R) : option R :=
  if ratings is [::] then None
  else Some (foldr +%R 0 ratings / (size ratings)%:R).

(** The inner [for user in train_p.index[ind]] loop. *)
Fixpoint collect_ratings (train_p : DataFrame R) (game : nat)
    (numneighbors2use : nat) (users : seq nat) (ratings : seq R)
  : result (seq R) :=
  if users is user :: users' then
    s <~ getitem train_p game ;;
    v <~ series_get (df_index train_p) s user ;;
    if v is Some r then
      let ratings' := rcons ratings r in
      if (numneighbors2use <= size ratings')%N then Ok ratings'
      else collect_ratings train_p game numneighbors2use users' ratings'
    else collect_ratings train_p game numneighbors2use users' ratings
  else Ok ratings.

(** [train_p.index[ind]]: the users in the order in which the inner loop
    walks them, as far as its [break] lets it. *)
Definition neighbors (coords : seq (seq R)) (train_p : DataFrame R)
    (userindex : nat) : result (seq nat) :=
  targetcoord <~ row_at coords userindex ;;
  let dists := cdist targetcoord coords in
  let ind := argsort dists in
  take_labels (df_index train_p) ind.

(** [ind] for the user at row [userindex], and the labels [train_p.index[ind]]
    when every position has one. *)
Definition ranking (coords : seq (seq R)) (userindex : nat) : seq nat :=
  argsort (cdist (nth [::] coords userindex) coords).

Definition ranked_users (coords : seq (seq R)) (train_p : DataFrame R)
    (userindex : nat) : seq nat :=
  [seq nth 0%N (df_index train_p) i | i <- ranking coords userindex].

(** The ratings of [game] that are not NaN in [train_p], in the order in
    which the inner loop meets them. *)
Definition ranked_ratings (coords : seq (seq R)) (train_p : DataFrame R)
    (userindex game : nat) : seq R :=
  pmap (fun u => loc train_p u game) (ranked_users coords train_p userindex).

(** The body of the outer loop, for one row [rec] of the test table. *)
Definition estimate_one (coords : seq (seq R)) (train_p : DataFrame R)
    (numneighbors2use : nat) (rec : nat * nat) : result (option R) :=
  userindex <~ get_loc (df_index train_p) (rec_userID rec) ;;
  users <~ neighbors coords train_p userindex ;;
  ratings <~ collect_ratings train_p (rec_gameID rec) numneighbors2use
               users [::] ;;
  Ok (mean ratings).

Definition estimate_ratings (testdata : seq (nat * nat))
    (coords : seq (seq R)) (train_p : DataFrame R)
    (numneighbors2use : nat) : result (seq (option R)) :=
  mapM (estimate_one coords train_p numneighbors2use) testdata.

End Estimate.

(** What [np.argsort] with its default [kind] promises: a permutation of
    the positions along which the keys ascend.  The order among equal
    keys is not part of it. *)
Definition argsort_spec (R : realFieldType) (argsort : seq R -> seq nat)
  : Prop :=
  forall keys : seq R,
    perm_eq (argsort keys) (iota 0 (size keys))
    /\ sorted (key_leq keys) (argsort keys).

(** A sorter that keeps equal keys in position order, as
    [np.argsort(kind='stable')] does.  The source does not ask for it;
    the examples use it as one sorter that meets [argsort_spec]. *)
Definition stable_argsort (R : realFieldType) (keys : seq R) : seq nat :=
  sort (key_leq keys) (iota 0 (size keys)).

(** A sorter that leaves equal keys in reverse position order. *)
Definition reverse_argsort (R : realFieldType) (keys : seq R) : seq nat :=
  sort (key_leq keys) (rev (iota 0 (size keys))).

(** ** The top-level cell *)

Section Pipeline.

Variable R : realFieldType.

(** [TruncatedSVD(n_components=d).fit_transform(df)], a parameter. *)
Variable fit_transform : nat -> DataFrame R -> result (seq (seq R)).
Variable argsort : seq R -> seq nat.

(** [rand c a b] is the array returned by call number [c] of
    [np.random.rand(a, b)]. *)
Variable rand : nat -> forall a b : nat, 'M[R]_(a, b).

Variable userdata : seq (nat * nat * R).
Variable testdata : seq (nat * nat).

Definition traindata : seq (nat * nat * R) :=
  [seq r <- userdata | userID r \in [seq rec_userID q | q <- testdata]].

Definition testdata_filt : seq (nat * nat) :=
  [seq q <- testdata | rec_userID q \in [seq userID r | r <- userdata]].

Definition lambda_ : R := 10%:R^-1.
Definition n_factors : nat := 10.
Definition n_iterations : nat := 8.
Definition numdims : nat := 4.
Definition numneighbors2use : nat := 50.

(** [do_ALS] on the zero-filled pivot, back to a frame, clamped to 1-10. *)
Definition train_p_filled (train_p : DataFrame R) : result (DataFrame R) :=
  r <~ do_ALS (fillna_values 0 train_p) n_iterations lambda_ true true
         (rand 0%N _ n_factors) (rand 1%N n_factors _) ;;
  let filled := frame_of_matrix (idx := df_index train_p)
                  (cols := df_columns train_p) r.1.1.1 in
  Ok (clip_lower 1 (clip_upper 10%:R filled)).

Definition ratings_est : result (seq (option R)) :=
  train_p <~ pivot traindata ;;
  filled <~ train_p_filled train_p ;;
  coords <~ fit_transform numdims filled ;;
  estimate_ratings argsort testdata_filt coords filled numneighbors2use.

End Pipeline.

(** One coordinate vector per row of the frame. *)
Definition fit_transform_spec (R : realFieldType)
    (fit_transform : nat -> DataFrame R -> result (seq (seq R))) : Prop :=
  forall d df coords,
    fit_transform d df = Ok coords -> size coords = size (df_values df).

(** ** The submission cell *)

(** [test_pred = testdata_filt.copy(); test_pred["rating"] = ratings_est]:
    on a frame that has rows, a column whose length is not their number
    raises [ValueError].  A frame without rows would take its rows from
    the column instead; that case is not modelled, and [test_pred] does
    not meet it, its column having one entry for each row.  [set_index]
    and [to_csv] only relabel and write the rows. *)
Definition assign_rating (R : realFieldType) (rows : seq (nat * nat))
    (ratings : seq (option R)) : result (seq (nat * nat * option R)) :=
  if size ratings == size rows then Ok (zip rows ratings)
  else Raise ValueError.

Definition test_pred (R : realFieldType)
    (fit_transform : nat -> DataFrame R -> result (seq (seq R)))
    (argsort : seq R -> seq nat)
    (rand : nat -> forall a b : nat, 'M[R]_(a, b))
    (userdata : seq (nat * nat * R)) (testdata : seq (nat * nat))
  : result (seq (nat * nat * option R)) :=
  ests <~ ratings_est fit_transform argsort rand userdata testdata ;;
  assign_rating (testdata_filt userdata testdata) ests.

(** ** Sample inputs *)

(** A frame with one user, one game and one rating, and its embedding. *)
Definition one_user : DataFrame rat :=
  mkDataFrame [:: 1%N] [:: 1%N] [:: [:: Some 7%:Q]].

Definition one_coord : seq (seq rat) := [:: [:: 0%:Q]].

(** Two users at the same point of the embedding. *)
Definition twins : DataFrame rat :=
  mkDataFrame [:: 1%N; 2%N] [:: 1%N] [:: [:: Some 7%:Q]; [:: Some 4%:Q]].

Definition twin_coords : seq (seq rat) := [:: [:: 0%:Q]; [:: 0%:Q]].

(** Two users at different points: a pivot in which each rated one game,
    and the same frame with numbers in place of the NaN. *)
Definition apart : DataFrame rat :=
  mkDataFrame [:: 1%N; 2%N] [:: 1%N; 2%N]
    [:: [:: Some 8%:Q; None]; [:: None; Some 3%:Q]].

Definition apart_filled : DataFrame rat :=
  mkDataFrame [:: 1%N; 2%N] [:: 1%N; 2%N]
    [:: [:: Some 8%:Q; Some 5%:Q]; [:: Some 6%:Q; Some 3%:Q]].

Definition apart_coords : seq (seq rat) := [:: [:: 0%:Q]; [:: 1%:Q]].

(** Two users who rated different games; only user 1 is tested. *)
Definition userdata2 (R : realFieldType) : seq (nat * nat * R) :=
  [:: (1%N, 1%N, 8%:R); (2%N, 2%N, 3%:R)].

Definition testdata2 : seq (nat * nat) := [:: (1%N, 1%N)].

(** User 1 rated games 1 to 4, user 2 rated game 5; each is asked about
    a game that only the other one rated. *)
Definition userdata5 (R : realFieldType) : seq (nat * nat * R) :=
  [:: (1%N, 1%N, 8%:R); (1%N, 2%N, 8%:R); (1%N, 3%N, 8%:R);
      (1%N, 4%N, 8%:R); (2%N, 5%N, 3%:R)].

Definition testdata5 : seq (nat * nat) := [:: (1%N, 5%N); (2%N, 1%N)].

Definition train_p5 (R : realFieldType) : DataFrame R :=
  mkDataFrame [:: 1%N; 2%N] [:: 1%N; 2%N; 3%N; 4%N; 5%N]
    [:: [:: Some 8%:R; Some 8%:R; Some 8%:R; Some 8%:R; None];
        [:: None; None; None; None; Some 3%:R]].

(** Stand-ins for the library parameters: the first [d] cells of each
    row as coordinates, and arrays of zeros as random draws. *)
Definition first_columns (R : realFieldType) (d : nat) (df : DataFrame R)
  : result (seq (seq R)) :=
  Ok [seq [seq odflt 0 c | c <- take d r] | r <- df_values df].

Definition zero_rand (R : realFieldType) (c a b : nat) : 'M[R]_(a, b) := 0.

(** * Properties *)

(** ** Results *)

Section ResultTheory.

Variables (T U S : Type).

Lemma bind_ok (c : result T) (k : T -> result U) (y : U) :
  bind c k = Ok y -> exists2 x, c = Ok x & k x = Ok y.
Proof. by case: c => [x|e] //= kx; exists x. Qed.

Lemma is_ok_bind (c : result T) (k : T -> result U) :
  is_ok c -> (forall x, c = Ok x -> is_ok (k x)) -> is_ok (bind c k).
Proof. by case: c => [x|e] //= _; apply. Qed.

Lemma is_okP (c : result T) : reflect (exists x, c = Ok x) (is_ok c).
Proof.
by case: c => [x|e] /=; constructor; [exists x | case].
Qed.

Lemma mapM_raise (f : T -> result U) (s : seq T) :
  has (fun x => ~~ is_ok (f x)) s -> ~~ is_ok (mapM f s).
Proof.
elim: s => [|x s IHs] //=; case: (f x) => [y|e] //= bad.
by case: (mapM f s) (IHs bad).
Qed.

Lemma mapM_ok (f : T -> result U) (s : seq T) :
  all (fun x => is_ok (f x)) s -> is_ok (mapM f s).
Proof.
elim: s => [|x s IHs] //= /andP[]; case: (f x) => [y|e] //= _ /IHs.
by case: (mapM f s).
Qed.

End ResultTheory.

Lemma mapM_map (T : eqType) (U : Type) (f : T -> result U) (g : T -> U)
    (s : seq T) :
  {in s, forall x, f x = Ok (g x)} -> mapM f s = Ok (map g s).
Proof.
elim: s => [|x s IHs] //= fg; rewrite fg ?mem_head //=.
by rewrite IHs // => y y_in; apply: fg; rewrite in_cons y_in orbT.
Qed.

(** Inverts a successful [bind] at the top of the goal. *)
Ltac inv_bind :=
  let h := fresh "h" in move=> h; case: (bind_ok h) => {h}.

(** ** Alternating least squares *)

Section ALSTheory.

Variable R : realFieldType.

Lemma rv_sq_ge0 (k : nat) (v : 'rV[R]_k) : 0 <= (v *m v^T) 0 0.
Proof. by rewrite mxE sumr_ge0 // => i _; rewrite mxE -expr2 sqr_ge0. Qed.

Lemma rv_sq_eq0 (k : nat) (v : 'rV[R]_k) : (v *m v^T) 0 0 = 0 -> v = 0.
Proof.
rewrite mxE => e; apply/rowP => i; rewrite mxE.
have sq_ge0 (j : 'I_k) : true -> 0 <= v 0 j * v^T j 0.
  by move=> _; rewrite mxE -expr2 sqr_ge0.
have := psumr_eq0P sq_ge0 e (erefl : xpredT i).
by rewrite mxE -expr2 => /eqP; rewrite sqrf_eq0 => /eqP.
Qed.

(** A positive multiple of the identity added to a positive semidefinite
    matrix is invertible. *)
Lemma psd_reg_unit (k : nat) (A : 'M[R]_k) (lam : R) :
  psd A -> 0 < lam -> A + lam *: 1%:M \in unitmx.
Proof.
move=> Apsd lam_gt0; rewrite -row_free_unit -kermx_eq0.
apply/rowV0P => v /sub_kermxP vA.
have: (v *m (A + lam *: 1%:M) *m v^T) 0 0 = 0 by rewrite vA mul0mx mxE.
rewrite mulmxDr mulmxDl mxE -scalemxAr mulmx1 -scalemxAl [X in _ + X]mxE.
move=> e; apply: rv_sq_eq0; apply/eqP; rewrite eq_le.
rewrite rv_sq_ge0 andbT -(pmulr_rle0 _ lam_gt0).
have := Apsd v; move/eqP: e; rewrite addr_eq0 => /eqP ->.
by rewrite oppr_ge0.
Qed.

Lemma psd_gram (k n : nat) (M : 'M[R]_(k, n)) (w : 'rV[R]_n) :
  (forall j, 0 <= w 0 j) -> psd (M *m (diag_mx w *m M^T)).
Proof.
move=> w_ge0 v; rewrite !mulmxA -mulmxA -trmx_mul.
set y := v *m M; rewrite mxE sumr_ge0 // => j _.
rewrite mul_mx_diag !mxE mulrAC -expr2.
by rewrite mulr_ge0 ?sqr_ge0.
Qed.

Lemma psd_gram1 (k n : nat) (M : 'M[R]_(k, n)) : psd (M *m M^T).
Proof.
by move=> v; rewrite mulmxA -[_ *m v^T]mulmxA -trmx_mul rv_sq_ge0.
Qed.

Lemma solve_ok (k r : nat) (A : 'M[R]_k) (B x : 'M[R]_(k, r)) :
  solve A B = Ok x -> A \in unitmx /\ A *m x = B.
Proof.
rewrite /solve; case: ifP => // Au [<-]; split=> //.
by rewrite mulmxA mulmxV // mul1mx.
Qed.

Lemma solve_unit (k r : nat) (A : 'M[R]_k) (B : 'M[R]_(k, r)) :
  A \in unitmx -> solve A B = Ok (invmx A *m B).
Proof. by rewrite /solve => ->. Qed.

Lemma solve_unique (k r : nat) (A : 'M[R]_k) (B x : 'M[R]_(k, r)) :
  A \in unitmx -> A *m x = B -> solve A B = Ok x.
Proof.
by move=> Au <-; rewrite solve_unit // mulmxA mulVmx // mul1mx.
Qed.

End ALSTheory.

Section ALSSteps.

Variable R : realFieldType.
Variables (m n k : nat) (lam : R) (Q W : 'M[R]_(m, n)).

Lemma row_set_row (X : 'M[R]_(m, k)) (u v : 'I_m) (x : 'rV[R]_k) :
  row v (set_row X u x) = if v == u then x else row v X.
Proof. by apply/rowP => j; rewrite !mxE; case: ifP; rewrite ?mxE. Qed.

Lemma col_set_col (Y : 'M[R]_(k, n)) (i j : 'I_n) (y : 'cV[R]_k) :
  col j (set_col Y i y) = if j == i then y else col j Y.
Proof. by apply/colP => a; rewrite !mxE; case: ifP; rewrite ?mxE. Qed.

(** The loop over user rows: a visited row holds the solution of its
    system, the other rows are untouched. *)
Lemma update_users_rows (Y : 'M[R]_(k, n)) (s : seq 'I_m)
    (X X' : 'M[R]_(m, k)) :
  uniq s -> foldM (update_user lam Q W Y) X s = Ok X' ->
  forall u, if u \in s
            then user_lhs lam W Y u \in unitmx
                 /\ user_lhs lam W Y u *m (row u X')^T = user_rhs Q W Y u
            else row u X' = row u X.
Proof.
elim: s X => [|u0 s IHs] X /=; first by move=> _ [<-].
case/andP=> u0_notin uniq_s; inv_bind => X1.
rewrite /update_user; inv_bind => x /solve_ok[A_unit Ax] [<-] loop u.
have := IHs _ uniq_s loop u; rewrite in_cons.
case: (altP (u =P u0)) => [->|u_neq] /=.
  by rewrite (negPf u0_notin) => ->; rewrite row_set_row eqxx trmxK.
by case: ifP => // _ ->; rewrite row_set_row (negPf u_neq).
Qed.

Lemma update_users_total (Y : 'M[R]_(k, n)) (s : seq 'I_m)
    (X : 'M[R]_(m, k)) :
  (forall u, user_lhs lam W Y u \in unitmx) ->
  is_ok (foldM (update_user lam Q W Y) X s).
Proof.
move=> A_unit; elim: s X => [|u s IHs] X //=.
by rewrite {1}/update_user solve_unit //=; apply: IHs.
Qed.

(** The loop over item columns. *)
Lemma update_items_cols (X : 'M[R]_(m, k)) (s : seq 'I_n)
    (Y Y' : 'M[R]_(k, n)) :
  uniq s -> foldM (update_item lam Q W X) Y s = Ok Y' ->
  forall i, if i \in s
            then item_lhs lam W X i \in unitmx
                 /\ item_lhs lam W X i *m col i Y' = item_rhs Q W X i
            else col i Y' = col i Y.
Proof.
elim: s Y => [|i0 s IHs] Y /=; first by move=> _ [<-].
case/andP=> i0_notin uniq_s; inv_bind => Y1.
rewrite /update_item; inv_bind => y /solve_ok[A_unit Ay] [<-] loop i.
have := IHs _ uniq_s loop i; rewrite in_cons.
case: (altP (i =P i0)) => [->|i_neq] /=.
  by rewrite (negPf i0_notin) => ->; rewrite col_set_col eqxx.
by case: ifP => // _ ->; rewrite col_set_col (negPf i_neq).
Qed.

Lemma update_items_total (X : 'M[R]_(m, k)) (s : seq 'I_n)
    (Y : 'M[R]_(k, n)) :
  (forall i, item_lhs lam W X i \in unitmx) ->
  is_ok (foldM (update_item lam Q W X) Y s).
Proof.
move=> A_unit; elim: s Y => [|i s IHs] Y //=.
by rewrite {1}/update_item solve_unit //=; apply: IHs.
Qed.

Lemma weighted_step_update (XY XY' : 'M[R]_(m, k) * 'M[R]_(k, n)) :
  weighted_step lam Q W XY = Ok XY' -> weighted_update lam Q W XY XY'.
Proof.
rewrite /weighted_step; inv_bind => X' users; inv_bind => Y' items [<-] /=.
split=> [u|i].
  by have := update_users_rows (enum_uniq _) users u; rewrite mem_enum.
have := update_items_cols (enum_uniq _) items i.
by rewrite mem_enum /item_lhs /item_rhs -tr_col.
Qed.

Hypothesis lam_gt0 : 0 < lam.
Hypothesis W_ge0 : forall i j, 0 <= W i j.

Lemma user_lhs_unit (Y : 'M[R]_(k, n)) (u : 'I_m) :
  user_lhs lam W Y u \in unitmx.
Proof.
by apply: psd_reg_unit => //; apply: psd_gram => j; rewrite mxE.
Qed.

Lemma item_lhs_unit (X : 'M[R]_(m, k)) (i : 'I_n) :
  item_lhs lam W X i \in unitmx.
Proof.
rewrite /item_lhs -{2}[X]trmxK; apply: psd_reg_unit => //.
by apply: psd_gram => j; rewrite !mxE.
Qed.

Lemma weighted_step_total (XY : 'M[R]_(m, k) * 'M[R]_(k, n)) :
  is_ok (weighted_step lam Q W XY).
Proof.
rewrite /weighted_step; apply: is_ok_bind => [|X' _].
  exact/update_users_total/user_lhs_unit.
apply: is_ok_bind => [|//].
exact/update_items_total/item_lhs_unit.
Qed.

Lemma gram_reg_unit (a b : nat) (M : 'M[R]_(a, b)) :
  M *m M^T + lam *: 1%:M \in unitmx.
Proof. by apply: psd_reg_unit => //; apply: psd_gram1. Qed.

Lemma unweighted_step_total (XY : 'M[R]_(m, k) * 'M[R]_(k, n)) :
  is_ok (unweighted_step lam Q XY).
Proof.
rewrite /unweighted_step solve_unit ?gram_reg_unit //=.
set X' := (_ *m _)^T; rewrite solve_unit // -{2}[X']trmxK.
exact: gram_reg_unit.
Qed.

End ALSSteps.

Section ALSRun.

Variable R : realFieldType.
Variables (m n : nat).

Lemma get_error_ge0 (k : nat) (Q : 'M[R]_(m, n)) (X : 'M[R]_(m, k))
    (Y : 'M[R]_(k, n)) (W : 'M[R]_(m, n)) : 0 <= get_error Q X Y W.
Proof.
by rewrite /get_error sumr_ge0 // => i _; rewrite sumr_ge0 // => j _;
   rewrite sqr_ge0.
Qed.

Lemma weights_ge0 (Q : 'M[R]_(m, n)) i j : 0 <= weights Q i j.
Proof. by rewrite mxE; case: ifP. Qed.

Section Loop.

Variables (k : nat) (Q W : 'M[R]_(m, n)).
Variable step : 'M[R]_(m, k) * 'M[R]_(k, n) ->
                result ('M[R]_(m, k) * 'M[R]_(k, n)).

(** A run of the loop that returns has gone through [n_iterations]
    states, each obtained from the one before by [step], and has appended
    the error of each of them. *)
Lemma als_loop_trace (N : nat) (s0 s : 'M[R]_(m, k) * 'M[R]_(k, n))
    (errs0 errs : seq R) :
  als_loop Q W step N s0 errs0 = Ok (s, errs) ->
  exists tr : seq ('M[R]_(m, k) * 'M[R]_(k, n)),
    [/\ size tr = N, last s0 tr = s,
        forall d i, (i < N)%N ->
          step (nth d (s0 :: tr) i) = Ok (nth d (s0 :: tr) i.+1)
      & errs = errs0 ++ [seq get_error Q t.1 t.2 W | t <- tr]].
Proof.
elim: N s0 errs0 => [|N IHN] s0 errs0 /=.
  by case=> <- <-; exists [::]; split; rewrite ?cats0.
inv_bind => s1 step1 /IHN[tr [size_tr last_tr steps ->]].
exists (s1 :: tr); split; rewrite /= ?size_tr ?cat_rcons //.
by move=> d [|i] // lt_iN; apply: steps.
Qed.

Lemma als_loop_total (N : nat) (s0 : 'M[R]_(m, k) * 'M[R]_(k, n))
    (errs0 : seq R) :
  (forall s, is_ok (step s)) -> is_ok (als_loop Q W step N s0 errs0).
Proof.
move=> step_ok; elim: N s0 errs0 => [|N IHN] s0 errs0 //=.
by apply: is_ok_bind => // s1 _; apply: IHN.
Qed.

End Loop.

End ALSRun.

Section DoALS.

Variable R : realFieldType.
Variables (m n k : nat).
Variables (Q : 'M[R]_(m, n)) (N : nat) (lam : R).
Variables (rand_X : 'M[R]_(m, k)) (rand_Y : 'M[R]_(k, n)).

(** A call that returns has run the loop body [N] times from the random
    start, returns the last pair of factors with their product, and one
    error per pass. *)
Lemma do_ALS_run (weighted verbose : bool) Qh X Y (errs : seq R) :
  do_ALS Q N lam weighted verbose rand_X rand_Y = Ok (Qh, X, Y, errs) ->
  exists tr : seq ('M[R]_(m, k) * 'M[R]_(k, n)),
    [/\ Qh = X *m Y, size tr = N,
        last (5%:R *: rand_X, 5%:R *: rand_Y) tr = (X, Y),
        forall d i, (i < N)%N ->
          (if weighted then weighted_step lam Q (weights Q)
           else unweighted_step lam Q)
            (nth d ((5%:R *: rand_X, 5%:R *: rand_Y) :: tr) i)
          = Ok (nth d ((5%:R *: rand_X, 5%:R *: rand_Y) :: tr) i.+1)
      & errs = [seq get_error Q t.1 t.2 (weights Q) | t <- tr]].
Proof.
rewrite /do_ALS; case: weighted => /=; inv_bind=> -[[X' Y'] errs'].
  move=> /als_loop_trace[tr [size_tr last_tr steps ->]] /=.
  by case: ifP => // _ [<- <- <- <-]; exists tr; split.
move=> /als_loop_trace[tr [size_tr last_tr steps ->]] /= [<- <- <- <-].
by exists tr; split.
Qed.

Lemma do_ALS_total (weighted verbose : bool) :
  0 < lam -> (0 < N)%N || ~~ (weighted && verbose) ->
  is_ok (do_ALS Q N lam weighted verbose rand_X rand_Y).
Proof.
move=> lam_gt0 no_slip; rewrite /do_ALS; case: weighted no_slip => /= no_slip.
  apply: is_ok_bind => [|r _].
    apply: als_loop_total => s.
    exact: (weighted_step_total _ lam_gt0 (@weights_ge0 _ _ _ Q)).
  by case: verbose no_slip => //=; rewrite orbF lt0n => /negbTE ->.
apply: is_ok_bind => [|//].
by apply: als_loop_total => s; apply: unweighted_step_total.
Qed.

End DoALS.

(** ** Frames *)

Section FrameTheory.

Variable R : realFieldType.

Lemma clip_cell (v : R) :
  1 <= (if (if 10%:R < v then 10%:R else v) < 1 then 1
        else if 10%:R < v then 10%:R else v) <= 10%:R.
Proof.
have le_1_10 : (1 : R) <= 10%:R by rewrite ler1n.
case: (ltP 10%:R v) => [lt_10_v|le_v_10].
  by rewrite ltNge le_1_10 /= le_1_10 lexx.
by case: (ltP v 1) => [_|le_1_v]; rewrite ?lexx ?le_1_10 ?le_1_v.
Qed.

Lemma iat_frame_of_matrix (idx cols : seq nat)
    (M : 'M[R]_(size idx, size cols)) (i : 'I_(size idx))
    (j : 'I_(size cols)) :
  iat (frame_of_matrix M) i j = Some (M i j).
Proof.
rewrite /iat /= (nth_map i) ?size_enum_ord // (nth_map j) ?size_enum_ord //.
by rewrite !nth_ord_enum.
Qed.

Lemma well_shaped_frame_of_matrix (idx cols : seq nat)
    (M : 'M[R]_(size idx, size cols)) : well_shaped (frame_of_matrix M).
Proof.
rewrite /well_shaped /= size_map size_enum_ord eqxx /= all_map.
by apply/allP => i _ /=; rewrite size_map size_enum_ord.
Qed.

Lemma well_shaped_map_cells (f : option R -> option R) (df : DataFrame R) :
  well_shaped (map_cells f df) = well_shaped df.
Proof.
rewrite /well_shaped /= size_map all_map; congr (_ && _).
by apply: eq_all => r /=; rewrite size_map.
Qed.

Lemma all_cells_map_cells (p : pred (option R)) (f : option R -> option R)
    (df : DataFrame R) :
  all_cells p (map_cells f df) = all_cells (preim f p) df.
Proof.
by rewrite /all_cells /= all_map; apply: eq_all => r /=; rewrite all_map.
Qed.

(** Clamping a frame built from a matrix leaves numbers between 1 and 10
    in every cell. *)
Lemma clip_frame_of_matrix (idx cols : seq nat)
    (M : 'M[R]_(size idx, size cols)) :
  all_cells (fun c => if c is Some v then 1 <= v <= 10%:R else false)
    (clip_lower 1 (clip_upper 10%:R (frame_of_matrix M))).
Proof.
rewrite /clip_lower /clip_upper !all_cells_map_cells /all_cells /= all_map.
apply/allP => i _ /=; rewrite all_map; apply/allP => j _ /=.
exact: clip_cell.
Qed.

End FrameTheory.

(** ** Neighbour estimation *)

Section EstimateTheory.

Variable R : realFieldType.

Lemma sqdist_ge0 (a b : seq R) : 0 <= sqdist a b.
Proof.
rewrite /sqdist; elim: (zip a b) => [|p s IHs] //=.
by rewrite addr_ge0 ?sqr_ge0.
Qed.

Lemma sqdist_self (a : seq R) : sqdist a a = 0.
Proof.
by rewrite /sqdist; elim: a => [|x a IHa] //=; rewrite IHa subrr expr0n addr0.
Qed.

Lemma key_leq_trans (keys : seq R) : transitive (key_leq keys).
Proof. by move=> j i l; apply: le_trans. Qed.

Lemma key_leq_total (keys : seq R) : total (key_leq keys).
Proof. by move=> i j; apply: le_total. Qed.

Lemma stable_argsort_spec : argsort_spec (@stable_argsort R).
Proof.
move=> keys; split; first by rewrite /stable_argsort perm_sort.
exact/sort_sorted/key_leq_total.
Qed.

(** Both sorters ascend; they differ on equal keys, which
    [argsort_spec] leaves open. *)
Lemma reverse_argsort_spec : argsort_spec (@reverse_argsort R).
Proof.
move=> keys; split; last exact/sort_sorted/key_leq_total.
by rewrite /reverse_argsort perm_sort perm_rev.
Qed.

Lemma take_labels_ok (idx ind : seq nat) :
  all (fun i => (i < size idx)%N) ind ->
  take_labels idx ind = Ok [seq nth 0%N idx i | i <- ind].
Proof.
rewrite /take_labels; elim: ind => [|i ind IHind] //= /andP[-> /IHind ->].
by [].
Qed.

Lemma take_labels_raise (idx ind : seq nat) :
  ~~ all (fun i => (i < size idx)%N) ind ->
  take_labels idx ind = Raise IndexError.
Proof.
rewrite /take_labels; elim: ind => [|i ind IHind] //=.
by case: ifP => //= _ /IHind ->.
Qed.

Lemma series_getitem (df : DataFrame R) (user game : nat) :
  user \in df_index df -> game \in df_columns df ->
  (s <~ getitem df game ;; series_get (df_index df) s user)
  = Ok (loc df user game).
Proof.
rewrite /getitem /series_get /loc /iat => -> -> /=; congr (Ok _).
set i := index user _; case: (ltnP i (size (df_values df))) => [lt_i|le_i].
  by rewrite (nth_map [::]).
by rewrite !nth_default ?size_map // nth_nil.
Qed.

Section Collect.

Variables (train_p : DataFrame R) (game n : nat).
Hypothesis game_col : game \in df_columns train_p.

(** The inner loop returns the ratings it had, followed by the first
    observed ratings of the users it visits: as many as are needed to
    reach [n], and one at least. *)
Lemma collect_ratings_take (users : seq nat) (ratings : seq R) :
  all (fun u => u \in df_index train_p) users ->
  collect_ratings train_p game n users ratings
  = Ok (ratings ++ take (maxn 1 (n - size ratings))
                     (pmap (fun u => loc train_p u game) users)).
Proof.
elim: users ratings => [|u users IHu] ratings /=; first by rewrite cats0.
case/andP=> u_in users_in.
have -> : getitem train_p game = Ok
    [seq nth None r (index game (df_columns train_p)) | r <- df_values train_p].
  by rewrite /getitem game_col.
have := series_getitem u_in game_col; rewrite /getitem game_col /= => ->.
case: (loc train_p u game) => [r|] /=; last exact: IHu.
rewrite size_rcons; case: leqP => [le_n|lt_n].
  by rewrite (maxn_idPl _) ?leq_subLR ?addn1 //= take0 cats1.
rewrite IHu // size_rcons cat_rcons.
have gt1 : (1 < n - size ratings)%N by rewrite ltn_subRL addn1.
rewrite (maxn_idPr _) ?subn_gt0 // (maxn_idPr _) 1?ltnW //.
by rewrite subnS -[(n - size ratings)%N]prednK 1?ltnW.
Qed.

(** The [break]: once the users walked so far hold the ratings that were
    still needed, the users after them are not looked at. *)
Lemma collect_ratings_break (before after : seq nat) (ratings : seq R) :
  all (fun u => u \in df_index train_p) before ->
  (maxn 1 (n - size ratings)
   <= size (pmap (fun u => loc train_p u game) before))%N ->
  collect_ratings train_p game n (before ++ after) ratings
  = collect_ratings train_p game n before ratings.
Proof.
elim: before ratings => [|u before IHb] ratings /=.
  by rewrite leqNgt leq_max ltnS leqnn.
case/andP=> u_in before_in.
have -> : getitem train_p game = Ok
    [seq nth None r (index game (df_columns train_p)) | r <- df_values train_p].
  by rewrite /getitem game_col.
have := series_getitem u_in game_col; rewrite /getitem game_col /= => ->.
case: (loc train_p u game) => [r|] /=; last exact: IHb.
move=> enough; rewrite size_rcons; case: (leqP n _) => // lt_n.
apply: IHb => //; rewrite size_rcons.
have gt1 : (1 < n - size ratings)%N by rewrite ltn_subRL addn1.
have -> : maxn 1 (n - (size ratings).+1) = (n - (size ratings).+1)%N.
  by apply/maxn_idPr; rewrite subn_gt0.
move: enough; have -> : maxn 1 (n - size ratings) = (n - size ratings)%N.
  exact/maxn_idPr/ltnW.
by rewrite subnS; case: (n - size ratings)%N gt1.
Qed.

End Collect.

End EstimateTheory.

Section Ranked.

Variable R : realFieldType.
Variable argsort : seq R -> seq nat.
Hypothesis argsort_ok : argsort_spec argsort.

Variables (coords : seq (seq R)) (train_p : DataFrame R).

Lemma ranking_perm (userindex : nat) :
  perm_eq (ranking argsort coords userindex) (iota 0 (size coords)).
Proof. by have [] := argsort_ok (cdist (nth [::] coords userindex) coords);
       rewrite size_map. Qed.

Lemma ranking_sorted (userindex : nat) :
  sorted (key_leq (cdist (nth [::] coords userindex) coords))
    (ranking argsort coords userindex).
Proof. by have [] := argsort_ok (cdist (nth [::] coords userindex) coords). Qed.

Lemma mem_ranking (userindex i : nat) :
  (i \in ranking argsort coords userindex) = (i < size coords)%N.
Proof. by rewrite (perm_mem (ranking_perm userindex)) mem_iota. Qed.

Hypothesis same_rows : size coords = size (df_index train_p).

Lemma neighbors_ok (userindex : nat) :
  (userindex < size coords)%N ->
  neighbors argsort coords train_p userindex
  = Ok (ranked_users argsort coords train_p userindex).
Proof.
rewrite /neighbors /row_at => -> /=; apply: take_labels_ok.
by apply/allP => i; rewrite mem_ranking same_rows.
Qed.

Lemma ranked_users_in_index (userindex : nat) :
  all (fun u => u \in df_index train_p)
    (ranked_users argsort coords train_p userindex).
Proof.
rewrite /ranked_users all_map; apply/allP => i /=.
by rewrite mem_ranking same_rows; apply: mem_nth.
Qed.

(** The ranking by squared distance is the ranking by distance: it
    ascends along the image of the keys under any increasing function,
    the square root among them. *)
Lemma ranking_root (userindex : nat) (root : R -> R) :
  {homo root : x y / x <= y} ->
  sorted (key_leq [seq root d | d <- cdist (nth [::] coords userindex) coords])
    (ranking argsort coords userindex).
Proof.
move=> root_mono; set dists := cdist _ _.
have in_range : all (fun i => (i < size dists)%N)
    (ranking argsort coords userindex).
  by apply/allP => i; rewrite mem_ranking size_map.
have := ranking_sorted userindex; rewrite -/dists.
elim: (ranking _ _ _) in_range => [|i s IHs] //= /andP[lt_i lt_s].
rewrite !(path_sortedE (@key_leq_trans _ _)).
case/andP=> /allP le_i /(IHs lt_s) ->; rewrite andbT.
apply/allP => j j_in; have lt_j := allP lt_s _ j_in.
by rewrite /key_leq !(nth_map 0) //; apply/root_mono/le_i.
Qed.

(** A query whose user is a row and whose game is a column of [train_p]
    gets the mean of the first ratings of its ranking. *)
Lemma estimate_one_ok (n : nat) (rec : nat * nat) :
  rec_userID rec \in df_index train_p ->
  rec_gameID rec \in df_columns train_p ->
  estimate_one argsort coords train_p n rec
  = Ok (mean (take (maxn 1 n)
               (ranked_ratings argsort coords train_p
                  (index (rec_userID rec) (df_index train_p))
                  (rec_gameID rec)))).
Proof.
move=> user_in game_in; rewrite /estimate_one /get_loc user_in /=.
rewrite neighbors_ok ?same_rows ?index_mem //=.
by rewrite collect_ratings_take ?ranked_users_in_index //= subn0.
Qed.

End Ranked.

Lemma estimate_one_absent_user (R : realFieldType)
    (argsort : seq R -> seq nat) (coords : seq (seq R))
    (train_p : DataFrame R) (n : nat) (rec : nat * nat) :
  rec_userID rec \notin df_index train_p ->
  estimate_one argsort coords train_p n rec = Raise KeyError.
Proof. by rewrite /estimate_one /get_loc => /negbTE ->. Qed.

Lemma mean_eq_None (R : realFieldType) (s : seq R) (n : nat) :
  (mean (take (maxn 1 n) s) == None) = (s == [::]).
Proof. by case: s => [|x s] //=; case: (maxn 1 n) (leq_maxl 1 n). Qed.

(** ** Pivot and the top-level cell *)

Section PipelineTheory.

Variable R : realFieldType.

Lemma mem_labels (s : seq nat) (x : nat) : (x \in labels s) = (x \in s).
Proof. by rewrite /labels mem_sort mem_undup. Qed.

Lemma labels_uniq (s : seq nat) : uniq (labels s).
Proof. by rewrite /labels sort_uniq undup_uniq. Qed.

Lemma labels_sorted (s : seq nat) : sorted ltn (labels s).
Proof.
rewrite ltn_sorted_uniq_leq labels_uniq /=.
exact/sort_sorted/leq_total.
Qed.

Lemma pivot_ok (rows : seq (nat * nat * R)) (df : DataFrame R) :
  pivot rows = Ok df ->
  [/\ df_index df = labels [seq userID r | r <- rows],
      df_columns df = labels [seq gameID r | r <- rows]
    & df_values df
      = [seq [seq lookup_rating rows u g | g <- df_columns df]
        | u <- df_index df]].
Proof. by rewrite /pivot; case: ifP => // _ [<-]. Qed.

Lemma lookup_rating_observed (rows : seq (nat * nat * R)) (u g : nat) :
  isSome (lookup_rating rows u g)
  = ((u, g) \in [seq (userID r, gameID r) | r <- rows]).
Proof.
rewrite /lookup_rating; elim: rows => [|r rows IHrows] //=.
rewrite in_cons xpair_eqE [u == _]eq_sym [g == _]eq_sym.
by case: ifP.
Qed.

Lemma lookup_rating_mem (rows : seq (nat * nat * R)) (u g : nat) (x : R) :
  lookup_rating rows u g = Some x -> (u, g, x) \in rows.
Proof.
rewrite /lookup_rating; elim: rows => [|[[u' g'] x'] rows IHrows] //=.
rewrite /userID /gameID /= in_cons; case: ifP => [/andP[/eqP-> /eqP->]|_].
  by case=> ->; rewrite eqxx.
by move/IHrows => ->; rewrite orbT.
Qed.

(** On the pivot itself a cell is a number exactly where the table has a
    rating of that user for that game. *)
Lemma loc_pivot (rows : seq (nat * nat * R)) (df : DataFrame R) (u g : nat) :
  pivot rows = Ok df -> u \in df_index df -> g \in df_columns df ->
  loc df u g = lookup_rating rows u g.
Proof.
case/pivot_ok=> _ _ vals u_in g_in; rewrite /loc /iat vals.
rewrite (nth_map 0%N) ?index_mem // (nth_map 0%N) ?index_mem //.
by rewrite !nth_index.
Qed.

Lemma pivot_total (rows : seq (nat * nat * R)) :
  uniq [seq (userID r, gameID r) | r <- rows] -> is_ok (pivot rows).
Proof. by rewrite /pivot => ->. Qed.

Variable userdata : seq (nat * nat * R).
Variable testdata : seq (nat * nat).

Lemma mem_traindata_users (u : nat) :
  (u \in [seq userID r | r <- traindata userdata testdata])
  = (u \in [seq userID r | r <- userdata])
    && (u \in [seq rec_userID q | q <- testdata]).
Proof.
apply/mapP/andP => [[r]|[/mapP[r r_in ->] u_test]].
  by rewrite mem_filter => /andP[r_test r_in] ->; split=> //; apply: map_f.
by exists r => //; rewrite mem_filter u_test.
Qed.

Lemma mem_traindata_games (g : nat) :
  (g \in [seq gameID r | r <- traindata userdata testdata])
  = has (fun r => (gameID r == g)
                  && (userID r \in [seq rec_userID q | q <- testdata]))
      userdata.
Proof.
apply/mapP/hasP => [[r]|[r r_in /andP[/eqP<- r_test]]].
  by rewrite mem_filter => /andP[r_test r_in] ->; exists r; rewrite ?eqxx.
by exists r => //; rewrite mem_filter r_test.
Qed.

Lemma mem_testdata_filt (rec : nat * nat) :
  (rec \in testdata_filt userdata testdata)
  = (rec \in testdata) && (rec_userID rec \in [seq userID r | r <- userdata]).
Proof. by rewrite mem_filter andbC. Qed.

Lemma lambda_gt0 : 0 < lambda_ R.
Proof. by rewrite /lambda_ invr_gt0 ltr0n. Qed.

Variable rand : nat -> forall a b : nat, 'M[R]_(a, b).

(** The completion of the top-level cell always returns: its
    regularisation is positive and it runs eight passes. *)
Lemma train_p_filled_ok (train_p : DataFrame R) :
  exists Qh : 'M[R]_(size (df_index train_p), size (df_columns train_p)),
    train_p_filled rand train_p
    = Ok (clip_lower 1 (clip_upper 10%:R (frame_of_matrix Qh))).
Proof.
rewrite /train_p_filled.
have /is_okP[[[[Qh X] Y] errs] ->] :=
  do_ALS_total (fillna_values 0 train_p) (N := n_iterations)
    (rand 0%N _ n_factors) (rand 1%N n_factors _) (weighted := true)
    (verbose := true) lambda_gt0 isT.
by exists Qh.
Qed.

End PipelineTheory.

(** ** Estimation over a frame without NaN *)

Section FilledTheory.

Variable R : realFieldType.

Lemma mean_perm (s t : seq R) : perm_eq s t -> mean s = mean t.
Proof.
move=> st.
have sum_st : foldr +%R 0 s = foldr +%R 0 t by rewrite !foldrE; apply: perm_big.
have := perm_size st; rewrite /mean.
by case: s t sum_st {st} => [|x s] [|y t] //= -> [->].
Qed.

Variable df : DataFrame R.
Hypothesis no_nan : all_cells isSome df.
Hypothesis shaped : well_shaped df.

Lemma loc_filled (user game : nat) :
  user \in df_index df -> game \in df_columns df -> loc df user game.
Proof.
case/andP: shaped => /eqP size_vals /allP size_rows.
rewrite -!index_mem -size_vals /loc /iat => lt_u lt_g.
set r := nth [::] _ _.
have r_in : r \in df_values df by apply: mem_nth.
have /allP := allP no_nan _ r_in; apply; apply: mem_nth.
by rewrite (eqP (size_rows _ r_in)).
Qed.

Variable argsort : seq R -> seq nat.
Hypothesis argsort_ok : argsort_spec argsort.
Variable coords : seq (seq R).
Hypothesis same_rows : size coords = size (df_index df).

Lemma ranked_users_perm (userindex : nat) :
  perm_eq (ranked_users argsort coords df userindex) (df_index df).
Proof.
rewrite /ranked_users -[X in perm_eq _ X](mkseq_nth 0%N) /mkseq.
by apply: perm_map; rewrite -same_rows; apply: ranking_perm.
Qed.

(** On a frame without NaN every ranked user contributes its cell. *)
Lemma ranked_ratings_filled (userindex game : nat) :
  game \in df_columns df ->
  ranked_ratings argsort coords df userindex game
  = [seq odflt 0 (loc df u game)
    | u <- ranked_users argsort coords df userindex].
Proof.
move=> game_in; rewrite /ranked_ratings.
have := ranked_users_in_index argsort_ok same_rows userindex.
elim: (ranked_users _ _ _ _) => [|u us IHus] //= /andP[u_in /IHus ->].
by case: (loc df u game) (loc_filled u_in game_in).
Qed.

(** With at least as many neighbours asked for as there are users, the
    estimate is the mean of the whole column. *)
Lemma estimate_one_filled (n : nat) (rec : nat * nat) :
  rec_userID rec \in df_index df -> rec_gameID rec \in df_columns df ->
  (size (df_index df) <= n)%N ->
  estimate_one argsort coords df n rec
  = Ok (mean [seq odflt 0 (loc df u (rec_gameID rec)) | u <- df_index df]).
Proof.
move=> user_in game_in le_n; rewrite estimate_one_ok // ranked_ratings_filled //.
have le_size : (size [seq odflt 0%R (loc df u (rec_gameID rec))
                      | u <- ranked_users argsort coords df
                               (index (rec_userID rec) (df_index df))]
                 <= maxn 1 n)%N.
  rewrite size_map (perm_size (ranked_users_perm _)).
  by rewrite (leq_trans le_n) // leq_maxr.
rewrite (take_oversize le_size).
by congr (Ok _); apply: mean_perm; apply: perm_map; apply: ranked_users_perm.
Qed.

End FilledTheory.

(** * The claims *)

(** ** Completion *)

(** C3. In weighted mode every pass of the loop of [do_ALS] sets each
    row [u] of [X] to the solution of
    [(Y diag(W_u) Y^T + lambda I) x = Y diag(W_u) Q_u^T] and then each
    column [i] of [Y] to the solution of
    [(X^T diag(W_i) X + lambda I) y = X^T diag(W_i) Q_i], and the
    completed matrix that is returned is the product of the returned
    factors.  The call returns whenever [lambda] is positive and the
    final verbose print finds its loop variable bound. *)
Theorem do_ALS_weighted_updates (R : realFieldType) (m n k : nat)
    (Q : 'M[R]_(m, n)) (N : nat) (lam : R) (verbose : bool)
    (rand_X : 'M[R]_(m, k)) (rand_Y : 'M[R]_(k, n)) :
  (0 < lam -> (0 < N)%N || ~~ verbose ->
   is_ok (do_ALS Q N lam true verbose rand_X rand_Y))
  /\ forall Qh X Y errs,
       do_ALS Q N lam true verbose rand_X rand_Y = Ok (Qh, X, Y, errs) ->
       Qh = X *m Y
       /\ exists tr : seq ('M[R]_(m, k) * 'M[R]_(k, n)),
            [/\ size tr = N,
                last (5%:R *: rand_X, 5%:R *: rand_Y) tr = (X, Y)
              & forall d i, (i < N)%N ->
                  weighted_update lam Q (weights Q)
                    (nth d ((5%:R *: rand_X, 5%:R *: rand_Y) :: tr) i)
                    (nth d ((5%:R *: rand_X, 5%:R *: rand_Y) :: tr) i.+1)].
Proof.
split=> [lam_gt0 bound|Qh X Y errs]; first exact: do_ALS_total.
case/do_ALS_run=> tr [-> size_tr last_tr steps _]; split=> //.
exists tr; split=> // d i lt_iN.
exact/weighted_step_update/steps.
Qed.

Lemma do_ALS_weighted_updates_witness :
  is_ok (do_ALS (0 : 'M[rat]_(1, 1)) 1 1 true true
           (0 : 'M[rat]_(1, 1)) (0 : 'M[rat]_(1, 1))).
Proof.
exact: (proj1 (do_ALS_weighted_updates 0 1 1 true 0 0) ltr01 isT).
Defined.

(** C4. The frame that the top-level cell clamps always exists, keeps the
    labels of the pivot, and holds a number between 1 and 10 in every
    cell: no NaN is left. *)
Theorem train_p_filled_clamped (R : realFieldType)
    (rand : nat -> forall a b : nat, 'M[R]_(a, b)) (train_p : DataFrame R) :
  exists filled : DataFrame R,
    [/\ train_p_filled rand train_p = Ok filled,
        df_index filled = df_index train_p,
        df_columns filled = df_columns train_p,
        well_shaped filled
      & all_cells (fun c => if c is Some v then 1 <= v <= 10%:R else false)
          filled].
Proof.
have [Qh ->] := train_p_filled_ok rand train_p.
eexists; split; first by []; rewrite ?clip_frame_of_matrix //.
by rewrite !well_shaped_map_cells well_shaped_frame_of_matrix.
Qed.

(** C5, at the call that breaks it.  With no iteration the weighted
    branch raises when it prints: the loop variable was never bound, so
    no error list is returned.  The unweighted branch returns the empty
    list on the same arguments. *)
Theorem do_ALS_no_iteration (R : realFieldType) (m n k : nat)
    (Q : 'M[R]_(m, n)) (lam : R)
    (rand_X : 'M[R]_(m, k)) (rand_Y : 'M[R]_(k, n)) :
  do_ALS Q 0 lam true true rand_X rand_Y = Raise UnboundLocalError
  /\ do_ALS Q 0 lam false true rand_X rand_Y
     = Ok ((5%:R *: rand_X) *m (5%:R *: rand_Y),
           5%:R *: rand_X, 5%:R *: rand_Y, [::]).
Proof. by []. Qed.

(** Every other call with a positive [lambda] runs [N] passes and returns
    [N] errors, none of them negative. *)
Lemma do_ALS_errors (R : realFieldType) (m n k : nat)
    (Q : 'M[R]_(m, n)) (N : nat) (lam : R) (weighted verbose : bool)
    (rand_X : 'M[R]_(m, k)) (rand_Y : 'M[R]_(k, n)) :
  0 < lam -> (0 < N)%N || ~~ (weighted && verbose) ->
  exists Qh X Y errs,
    [/\ do_ALS Q N lam weighted verbose rand_X rand_Y = Ok (Qh, X, Y, errs),
        size errs = N & all (fun e => 0 <= e) errs].
Proof.
move=> lam_gt0 bound.
have /is_okP[[[[Qh X] Y] errs] run] :=
  do_ALS_total Q rand_X rand_Y lam_gt0 bound.
exists Qh, X, Y, errs; split=> //.
  by have [tr [_ <- _ _ ->]] := do_ALS_run run; rewrite size_map.
have [tr [_ _ _ _ ->]] := do_ALS_run run; rewrite all_map.
by apply/allP => t _ /=; apply: get_error_ge0.
Qed.

Lemma do_ALS_errors_returned (R : realFieldType) (m n k : nat)
    (Q : 'M[R]_(m, n)) (N : nat) (lam : R) (weighted verbose : bool)
    (rand_X : 'M[R]_(m, k)) (rand_Y : 'M[R]_(k, n)) Qh X Y errs :
  do_ALS Q N lam weighted verbose rand_X rand_Y = Ok (Qh, X, Y, errs) ->
  size errs = N /\ all (fun e => 0 <= e) errs.
Proof.
case/do_ALS_run=> tr [_ <- _ _ ->]; rewrite size_map all_map; split=> //.
by apply/allP => t _ /=; apply: get_error_ge0.
Qed.

(** C9. [do_ALS] takes no mask: the weights of its systems and of its
    errors are [weights Q], the indicator of [Q > 0.5].  A cell at or
    below 0.5 has weight 0, and on the zero-filled pivot the weights are
    the observed mask exactly when every observed rating exceeds 0.5. *)
Theorem weights_observed_mask (R : realFieldType) :
  [/\ forall (m n : nat) (Q : 'M[R]_(m, n)) i j,
        weights Q i j = if 2%:R^-1 < Q i j then 1 else 0,
      forall (m n k : nat) (Q : 'M[R]_(m, n)) (N : nat) (lam : R)
             (weighted verbose : bool) (rand_X : 'M[R]_(m, k))
             (rand_Y : 'M[R]_(k, n)) Qh X Y errs,
        do_ALS Q N lam weighted verbose rand_X rand_Y = Ok (Qh, X, Y, errs) ->
        (0 < N)%N -> last 0 errs = get_error Q X Y (weights Q),
      forall (m n : nat) (Q : 'M[R]_(m, n)) i j,
        Q i j <= 2%:R^-1 -> weights Q i j = 0,
      forall (train_p : DataFrame R)
             (i : 'I_(size (df_index train_p)))
             (j : 'I_(size (df_columns train_p))),
        iat train_p i j = None ->
        weights (fillna_values 0 train_p) i j = 0
    & forall train_p : DataFrame R,
        weights (fillna_values 0 train_p) = observed_mask train_p
        <-> forall (i : 'I_(size (df_index train_p)))
                   (j : 'I_(size (df_columns train_p))) v,
              iat train_p i j = Some v -> 2%:R^-1 < v].
Proof.
split.
- by move=> m n Q i j; rewrite mxE.
- move=> m n k Q N lam weighted verbose rand_X rand_Y Qh X Y errs.
  case/do_ALS_run=> tr [_ <- last_tr _ ->].
  case: tr last_tr => [|t tr] //= last_tr _.
  by rewrite (last_map (fun t => get_error Q t.1 t.2 (weights Q))) last_tr.
- by move=> m n Q i j; rewrite mxE ltNge => ->.
- by move=> train_p i j cell; rewrite !mxE cell /= ltNge invr_ge0 ler0n.
move=> train_p; split=> [eqW i j v cell|obs].
  have := congr1 (fun M : 'M[R]_(_, _) => M i j) eqW; rewrite !mxE cell /=.
  by case: ifP => // _ /eqP; rewrite eq_sym oner_eq0.
apply/matrixP => i j; rewrite !mxE.
case cell: (iat train_p i j) => [v|] /=; first by rewrite (obs i j v).
by rewrite ltNge invr_ge0 ler0n.
Qed.

Lemma weights_observed_mask_witness :
  weights (0 : 'M[rat]_(1, 1)) 0 0 = 0.
Proof.
have [_ _ low _ _] := weights_observed_mask rat.
by apply: low; rewrite mxE.
Defined.

(** ** Neighbour estimation *)

(** C6, as the code has it.  The lookup of a user who is not a row label
    raises [KeyError]; nothing catches it, so a batch that contains such
    a query raises and returns no estimate at all. *)
Theorem estimate_ratings_absent_user (R : realFieldType)
    (argsort : seq R -> seq nat) (testdata : seq (nat * nat))
    (coords : seq (seq R)) (train_p : DataFrame R) (n : nat)
    (rec : nat * nat) :
  rec \in testdata -> rec_userID rec \notin df_index train_p ->
  estimate_one argsort coords train_p n rec = Raise KeyError
  /\ exists e, estimate_ratings argsort testdata coords train_p n = Raise e.
Proof.
move=> rec_in absent; have raises := estimate_one_absent_user _ _ _ absent.
split; first exact: raises.
have : ~~ is_ok (estimate_ratings argsort testdata coords train_p n).
  by apply: mapM_raise; apply/hasP; exists rec; rewrite ?raises.
by case: (estimate_ratings _ _ _ _ _) => // e _; exists e.
Qed.

Lemma estimate_ratings_absent_user_witness :
  estimate_one (@stable_argsort rat) one_coord one_user 1 (2%N, 1%N)
  = Raise KeyError
  /\ exists e,
       estimate_ratings (@stable_argsort rat) [:: (2%N, 1%N); (1%N, 1%N)]
         one_coord one_user 1 = Raise e.
Proof.
by apply: estimate_ratings_absent_user; rewrite ?mem_head.
Defined.

(** The batch [(2, 1); (1, 1)] on a frame whose only row is user 1: the
    second query alone has an estimate, the batch has none. *)
Lemma estimate_ratings_aborts :
  estimate_ratings (@stable_argsort rat) [:: (2%N, 1%N); (1%N, 1%N)]
    one_coord one_user 1 = Raise KeyError
  /\ estimate_one (@stable_argsort rat) one_coord one_user 1 (1%N, 1%N)
     = Ok (mean [:: 7%:Q])
  /\ mean [:: 7%:Q] == Some 7%:Q.
Proof. by []. Qed.

(** C7, as the code has it.  For a batch of queries whose users are rows
    and whose games are columns of [train_p], the estimate of a query is
    the mean of the first ratings that are not NaN along its ranking:
    [numneighbors2use] of them when that is positive, one otherwise, all
    of them when there are fewer.  It is NaN exactly when no user has a
    rating for the game. *)
Theorem estimate_ratings_mean (R : realFieldType)
    (argsort : seq R -> seq nat) (testdata : seq (nat * nat))
    (coords : seq (seq R)) (train_p : DataFrame R) (n : nat) :
  argsort_spec argsort -> size coords = size (df_index train_p) ->
  all (fun rec => (rec_userID rec \in df_index train_p)
                  && (rec_gameID rec \in df_columns train_p)) testdata ->
  let userindex rec := index (rec_userID rec) (df_index train_p) in
  let found rec :=
    ranked_ratings argsort coords train_p (userindex rec) (rec_gameID rec) in
  [/\ estimate_ratings argsort testdata coords train_p n
      = Ok [seq mean (take (maxn 1 n) (found rec)) | rec <- testdata],
      forall rec, (mean (take (maxn 1 n) (found rec)) == None)
                  = (found rec == [::]),
      forall rec, (size (take (maxn 1 n) (found rec)) <= maxn 1 n)%N
    & forall rec,
        sorted (key_leq (cdist (nth [::] coords (userindex rec)) coords))
          (ranking argsort coords (userindex rec))].
Proof.
move=> argsort_ok same_rows valid userindex found; split.
- rewrite /estimate_ratings; apply: mapM_map => rec /(allP valid)/andP[u_in g_in].
  exact: estimate_one_ok.
- by move=> rec; apply: mean_eq_None.
- by move=> rec; rewrite size_take; case: ltnP.
by move=> rec; apply: ranking_sorted.
Qed.

Lemma estimate_ratings_mean_witness :
  estimate_ratings (@stable_argsort rat) [:: (1%N, 1%N)] one_coord one_user 1
  = Ok [seq mean (take (maxn 1 1)
               (ranked_ratings (@stable_argsort rat) one_coord one_user
                  (index (rec_userID rec) [:: 1%N]) (rec_gameID rec)))
       | rec <- [:: (1%N, 1%N)]].
Proof.
by have [] := @estimate_ratings_mean _ _ [:: (1%N, 1%N)] one_coord one_user 1
                (@stable_argsort_spec rat) erefl isT.
Defined.

(** With [numneighbors2use = 0] one rating is still collected, and a game
    that is not a column raises instead of giving NaN. *)
Lemma estimate_one_zero_neighbors :
  [/\ estimate_one (@stable_argsort rat) one_coord one_user 0 (1%N, 1%N)
      = Ok (mean [:: 7%:Q]),
      mean [:: 7%:Q] == Some 7%:Q,
      mean (take 0 (ranked_ratings (@stable_argsort rat) one_coord one_user
                      0 1%N)) = None
    & estimate_one (@stable_argsort rat) one_coord one_user 1 (1%N, 2%N)
      = Raise KeyError].
Proof. by []. Qed.

(** C8, as the code has it.  For a query whose user is a row of
    [train_p], the candidates of the inner loop are all the users, each
    once and the query user among them, in ascending distance from the
    query user.  The query user is at distance 0, so whoever is ranked
    before it is at distance 0 as well; the order among users at the
    same distance is the one [argsort] leaves.  The loop walks the
    candidates in that order and leaves at its [break]: once the users
    walked so far hold [max 1 numneighbors2use] ratings of the game, the
    candidates after them are not looked at, the query user included
    when it is one of them. *)
Theorem ranking_ascending (R : realFieldType) (argsort : seq R -> seq nat)
    (coords : seq (seq R)) (train_p : DataFrame R) (numneighbors2use : nat)
    (rec : nat * nat) :
  argsort_spec argsort -> size coords = size (df_index train_p) ->
  rec_userID rec \in df_index train_p ->
  let userindex := index (rec_userID rec) (df_index train_p) in
  let game := rec_gameID rec in
  let dists := cdist (nth [::] coords userindex) coords in
  let ind := ranking argsort coords userindex in
  let users := [seq nth 0%N (df_index train_p) i | i <- ind] in
  [/\ neighbors argsort coords train_p userindex = Ok users
      /\ estimate_one argsort coords train_p numneighbors2use rec
         = (ratings <~ collect_ratings train_p game numneighbors2use
                         users [::] ;;
            Ok (mean ratings)),
      perm_eq ind (iota 0 (size coords))
      /\ perm_eq users (df_index train_p),
      sorted (key_leq dists) ind
      /\ (forall root : R -> R, {homo root : x y / x <= y} ->
            sorted (key_leq [seq root d | d <- dists]) ind),
      nth 0 dists userindex = 0
      /\ (forall i, i \in ind -> (index i ind < index userindex ind)%N ->
            nth 0 dists i = 0)
    & forall before after, users = before ++ after ->
        game \in df_columns train_p ->
        (maxn 1 numneighbors2use
         <= size (pmap (fun u => loc train_p u game) before))%N ->
        collect_ratings train_p game numneighbors2use users [::]
        = collect_ratings train_p game numneighbors2use before [::]].
Proof.
move=> argsort_ok same_rows user_in userindex game dists ind users.
have lt_u : (userindex < size coords)%N by rewrite same_rows index_mem.
have self0 : nth 0 dists userindex = 0.
  by rewrite (nth_map [::]) // sqdist_self.
have walk : neighbors argsort coords train_p userindex = Ok users.
  exact: neighbors_ok.
split.
- by split=> //; rewrite /estimate_one /get_loc user_in /= walk.
- split; first exact: ranking_perm.
  exact: ranked_users_perm.
- split; first exact: ranking_sorted.
  by move=> root root_mono; apply: ranking_root.
- split=> // i i_in before; apply/eqP; rewrite eq_le; apply/andP; split.
    have self_in : userindex \in ind by rewrite mem_ranking.
    have /(_ i userindex i_in self_in before) :=
      sorted_ltn_index (@key_leq_trans _ dists)
        (ranking_sorted argsort_ok coords userindex).
    by rewrite /key_leq self0.
  move: i_in; rewrite mem_ranking // => lt_i.
  by rewrite (nth_map [::]) // sqdist_ge0.
move=> before after users_eq game_in enough.
have : all (fun u => u \in df_index train_p) users.
  exact: ranked_users_in_index.
rewrite users_eq all_cat => /andP[before_in _].
by apply: collect_ratings_break; rewrite ?subn0.
Qed.

Lemma ranking_ascending_witness :
  estimate_one (@stable_argsort rat) twin_coords twins 1 (2%N, 1%N)
  = (ratings <~ collect_ratings twins 1 1 [:: 1%N; 2%N] [::] ;;
     Ok (mean ratings))
  /\ collect_ratings twins 1 1 [:: 1%N; 2%N] [::]
     = collect_ratings twins 1 1 [:: 1%N] [::].
Proof.
have [[_ loop] _ _ _ leave] :=
  @ranking_ascending _ _ twin_coords twins 1 (2%N, 1%N)
    (@stable_argsort_spec rat) erefl isT.
split; first exact: loop.
exact: (leave [:: 1%N] [:: 2%N] erefl isT isT).
Defined.

(** The order of equal keys is not fixed by what [argsort] promises. *)
Lemma argsort_ties_open :
  [/\ argsort_spec (@stable_argsort rat), argsort_spec (@reverse_argsort rat),
      stable_argsort [:: 0%:Q; 0%:Q] = [:: 0%N; 1%N]
    & reverse_argsort [:: 0%:Q; 0%:Q] = [:: 1%N; 0%N]].
Proof.
by split=> //; [apply: stable_argsort_spec | apply: reverse_argsort_spec].
Qed.

(** Two users at the same point: user 2, at row 1, asks; user 1 is
    visited first. *)
Lemma query_user_not_first :
  get_loc (df_index twins) 2 = Ok 1%N
  /\ neighbors (@stable_argsort rat) twin_coords twins 1
     = Ok [:: 1%N; 2%N].
Proof. by []. Qed.

(** ** Pivot and the top-level cell *)

(** C2, as the code has it.  The columns of [train_p] are the games rated
    by a user of the training subset, in ascending order; a game that
    only other users rated has no column. *)
Theorem pivot_columns (R : realFieldType) (userdata : seq (nat * nat * R))
    (testdata : seq (nat * nat)) (train_p : DataFrame R) :
  pivot (traindata userdata testdata) = Ok train_p ->
  (forall g,
     (g \in df_columns train_p)
     = has (fun r => (gameID r == g)
                     && (userID r \in [seq rec_userID q | q <- testdata]))
         userdata)
  /\ sorted ltn (df_columns train_p).
Proof.
case/pivot_ok=> _ -> _; split=> [g|]; last exact: labels_sorted.
by rewrite mem_labels mem_traindata_games.
Qed.

Lemma pivot_columns_witness :
  (forall g,
     (g \in [:: 1%N])
     = has (fun r : nat * nat * rat =>
              (gameID r == g) && (userID r \in [:: 1%N]))
         (userdata2 rat))
  /\ sorted ltn [:: 1%N].
Proof.
exact: (@pivot_columns rat (userdata2 rat) testdata2
          (mkDataFrame [:: 1%N] [:: 1%N] [:: [:: Some 8%:R]]) erefl).
Defined.

(** Game 2 is rated in the full table, by user 2 only; user 2 is not
    tested, and the pivot has no column for game 2. *)
Lemma pivot_misses_game :
  pivot (traindata (userdata2 rat) testdata2)
  = Ok (mkDataFrame [:: 1%N] [:: 1%N] [:: [:: Some 8%:R]])
  /\ 2%N \in [seq gameID r | r <- userdata2 rat].
Proof. by []. Qed.

(** C10. The rows of [train_p] are the users of the full table that
    occur in the test table, the queries that are kept are the test rows
    whose user occurs in the full table, and so the lookup of the user of
    a kept query in the row labels of the frame handed to
    [estimate_ratings] returns a position. *)
Theorem testdata_filt_users_found (R : realFieldType)
    (userdata : seq (nat * nat * R)) (testdata : seq (nat * nat))
    (rand : nat -> forall a b : nat, 'M[R]_(a, b))
    (train_p : DataFrame R) :
  pivot (traindata userdata testdata) = Ok train_p ->
  [/\ forall u,
        (u \in df_index train_p)
        = (u \in [seq userID r | r <- userdata])
          && (u \in [seq rec_userID q | q <- testdata]),
      forall rec,
        (rec \in testdata_filt userdata testdata)
        = (rec \in testdata)
          && (rec_userID rec \in [seq userID r | r <- userdata])
    & exists2 filled,
        train_p_filled rand train_p = Ok filled
        & forall rec, rec \in testdata_filt userdata testdata ->
            exists2 i, get_loc (df_index filled) (rec_userID rec) = Ok i
                     & (i < size (df_index filled))%N].
Proof.
case/pivot_ok=> idx _ _.
have mem_idx u : (u \in df_index train_p)
    = (u \in [seq userID r | r <- userdata])
      && (u \in [seq rec_userID q | q <- testdata]).
  by rewrite idx mem_labels mem_traindata_users.
split=> //; first exact: mem_testdata_filt.
have [Qh ->] := train_p_filled_ok rand train_p.
eexists; first by []; move=> rec /=.
rewrite mem_testdata_filt => /andP[rec_in user_in].
have found : rec_userID rec \in df_index train_p.
  by rewrite mem_idx user_in /=; apply: map_f.
by exists (index (rec_userID rec) (df_index train_p));
   rewrite /get_loc ?found // index_mem.
Qed.

Lemma testdata_filt_users_found_witness :
  exists2 filled,
    train_p_filled (@zero_rand rat)
      (mkDataFrame [:: 1%N] [:: 1%N] [:: [:: Some 8%:R]]) = Ok filled
    & forall rec, rec \in testdata_filt (userdata2 rat) testdata2 ->
        exists2 i, get_loc (df_index filled) (rec_userID rec) = Ok i
                 & (i < size (df_index filled))%N.
Proof.
by have [] := @testdata_filt_users_found rat (userdata2 rat) testdata2
                (@zero_rand rat) _ erefl.
Defined.

Lemma clip_frame_no_nan (R : realFieldType) (idx cols : seq nat)
    (M : 'M[R]_(size idx, size cols)) :
  all_cells isSome (clip_lower 1 (clip_upper 10%:R (frame_of_matrix M))).
Proof.
have := clip_frame_of_matrix M; rewrite /all_cells.
by apply: sub_all => r; apply: sub_all => -[].
Qed.

Lemma clip_frame_shaped (R : realFieldType) (idx cols : seq nat)
    (M : 'M[R]_(size idx, size cols)) :
  well_shaped (clip_lower 1 (clip_upper 10%:R (frame_of_matrix M))).
Proof. by rewrite !well_shaped_map_cells well_shaped_frame_of_matrix. Qed.

Lemma first_columns_spec (R : realFieldType) :
  fit_transform_spec (@first_columns R).
Proof. by move=> d df coords [<-]; rewrite size_map. Qed.

(** The query (user 1, game 2) with one neighbour asked for.  On the
    pivot the NaN of user 1 is skipped and the rating of user 2 is
    returned; on a frame where the NaN were replaced by numbers the
    number in the cell of user 1 is returned. *)
Lemma estimate_ratings_on_filled_frame :
  [/\ estimate_ratings (@stable_argsort rat) [:: (1%N, 2%N)] apart_coords
        apart 1 = Ok [:: mean [:: 3%:Q]],
      estimate_ratings (@stable_argsort rat) [:: (1%N, 2%N)] apart_coords
        apart_filled 1 = Ok [:: mean [:: 5%:Q]],
      mean [:: 3%:Q] == Some 3%:Q
    & mean [:: 5%:Q] == Some 5%:Q].
Proof. by []. Qed.

(** C1, at an input that breaks it.  User 1 rated games 1 to 4 and user 2
    rated game 5.  For the query (user 1, game 5) the only observed
    rating is the 3 of user 2, and the cell of user 1 is NaN in the
    pivot.  The top-level cell hands the completed frame to
    [estimate_ratings]: both cells are numbers there, and the estimate is
    the mean of the two, the imputed one included. *)
Theorem ratings_est_counts_imputed (R : realFieldType)
    (fit_transform : nat -> DataFrame R -> result (seq (seq R)))
    (argsort : seq R -> seq nat)
    (rand : nat -> forall a b : nat, 'M[R]_(a, b)) :
  argsort_spec argsort -> fit_transform_spec fit_transform ->
  exists (filled : DataFrame R) (a b a' b' : R),
    [/\ pivot (traindata (userdata5 R) testdata5) = Ok (train_p5 R),
        loc (train_p5 R) 1 5 = None /\ loc (train_p5 R) 2 5 = Some 3%:R,
        train_p_filled rand (train_p5 R) = Ok filled,
        [/\ loc filled 1 5 = Some a, loc filled 2 5 = Some b,
            loc filled 1 1 = Some a' & loc filled 2 1 = Some b']
      & ratings_est fit_transform argsort rand (userdata5 R) testdata5
        = (coords <~ fit_transform numdims filled ;;
           Ok [:: mean [:: a; b]; mean [:: a'; b']])].
Proof.
move=> argsort_ok fit_ok.
have piv : pivot (traindata (userdata5 R) testdata5) = Ok (train_p5 R) by [].
have [Qh fill] := train_p_filled_ok rand (train_p5 R).
set filled := clip_lower _ _ in fill.
have no_nan : all_cells isSome filled by apply: clip_frame_no_nan.
have shaped : well_shaped filled by apply: clip_frame_shaped.
have cell u g : u \in [:: 1; 2]%N -> g \in [:: 1; 2; 3; 4; 5]%N ->
    loc filled u g = Some (odflt 0 (loc filled u g)).
  move=> u_in g_in.
  by case: (loc filled u g) (@loc_filled _ _ no_nan shaped u g u_in g_in).
exists filled, (odflt 0 (loc filled 1 5)), (odflt 0 (loc filled 2 5)),
  (odflt 0 (loc filled 1 1)), (odflt 0 (loc filled 2 1)).
split=> //; first by split; rewrite -cell.
rewrite /ratings_est piv /= fill /=.
case fit: (fit_transform numdims filled) => [coords|e] //=.
have same_rows : size coords = size (df_index filled).
  by rewrite (fit_ok _ _ _ fit) (eqP (proj1 (andP shaped))).
rewrite /estimate_ratings /=.
by rewrite !(estimate_one_filled no_nan shaped argsort_ok same_rows).
Qed.

Lemma ratings_est_counts_imputed_witness :
  exists (filled : DataFrame rat) (a b a' b' : rat),
    [/\ pivot (traindata (userdata5 rat) testdata5) = Ok (train_p5 rat),
        loc (train_p5 rat) 1 5 = None /\ loc (train_p5 rat) 2 5 = Some 3%:R,
        train_p_filled (@zero_rand rat) (train_p5 rat) = Ok filled,
        [/\ loc filled 1 5 = Some a, loc filled 2 5 = Some b,
            loc filled 1 1 = Some a' & loc filled 2 1 = Some b']
      & ratings_est (@first_columns rat) (@stable_argsort rat)
          (@zero_rand rat) (userdata5 rat) testdata5
        = (coords <~ first_columns numdims filled ;;
           Ok [:: mean [:: a; b]; mean [:: a'; b']])].
Proof.
exact: (ratings_est_counts_imputed (@zero_rand rat)
          (@stable_argsort_spec rat) (@first_columns_spec rat)).
Defined.

(** * Further properties *)

(** ** Pivot *)

Lemma pivot_well_shaped (R : realFieldType) (rows : seq (nat * nat * R))
    (df : DataFrame R) : pivot rows = Ok df -> well_shaped df.
Proof.
case/pivot_ok=> _ _ vals; rewrite /well_shaped vals size_map eqxx /= all_map.
by apply/allP => u _ /=; rewrite size_map.
Qed.

Lemma loc_absent (R : realFieldType) (df : DataFrame R) (u g : nat) :
  well_shaped df -> (u \notin df_index df) || (g \notin df_columns df) ->
  loc df u g = None.
Proof.
case/andP=> /eqP size_vals /allP size_rows; rewrite /loc /iat.
rewrite -!index_mem -!leqNgt -size_vals => /orP[le_u|le_g].
  by rewrite (nth_default _ le_u) nth_nil.
case: (ltnP (index u (df_index df)) (size (df_values df))) => [lt_u|le_u].
  by rewrite nth_default // (eqP (size_rows _ (mem_nth _ lt_u))).
by rewrite (nth_default _ le_u) nth_nil.
Qed.

Lemma uniq_keys_rating (R : realFieldType) (rows : seq (nat * nat * R))
    (u g : nat) (x y : R) :
  uniq [seq (userID r, gameID r) | r <- rows] ->
  (u, g, x) \in rows -> (u, g, y) \in rows -> x = y.
Proof.
elim: rows => [|r rows IHrows] //= /andP[r_notin uniq_rows].
rewrite !in_cons => /orP[/eqP r_x|x_in] /orP[/eqP r_y|y_in].
- by move: r_y; rewrite -r_x => -[].
- by case/negP: r_notin; rewrite -r_x; apply/mapP; exists (u, g, y).
- by case/negP: r_notin; rewrite -r_y; apply/mapP; exists (u, g, x).
exact: IHrows.
Qed.

(** A table with at most one rating per (user, game) pair pivots to a
    well-shaped frame with strictly ascending labels, in which the cell
    of a user and a game is a number exactly when the table has a row
    for them, and then it is the rating of that row. *)
Lemma pivot_round_trip (R : realFieldType) (rows : seq (nat * nat * R)) :
  uniq [seq (userID r, gameID r) | r <- rows] ->
  exists df : DataFrame R,
    [/\ pivot rows = Ok df, well_shaped df,
        sorted ltn (df_index df) /\ sorted ltn (df_columns df)
      & forall u g x, loc df u g = Some x <-> (u, g, x) \in rows].
Proof.
move=> uniq_rows; have /is_okP[df piv] := pivot_total uniq_rows.
have [idx cols _] := pivot_ok piv; have shaped := pivot_well_shaped piv.
exists df; split=> //; first by rewrite idx cols !labels_sorted.
move=> u g x; split=> [cell|row_in].
  have [u_in g_in] : u \in df_index df /\ g \in df_columns df.
    by split; apply: contraPT cell => absent;
       rewrite (loc_absent shaped) ?absent ?orbT.
  by apply: lookup_rating_mem; rewrite -(loc_pivot piv).
have u_in : u \in df_index df.
  by rewrite idx mem_labels; apply/mapP; exists (u, g, x).
have g_in : g \in df_columns df.
  by rewrite cols mem_labels; apply/mapP; exists (u, g, x).
rewrite (loc_pivot piv) //.
have : isSome (lookup_rating rows u g).
  by rewrite lookup_rating_observed; apply/mapP; exists (u, g, x).
case found: (lookup_rating rows u g) => [y|] // _.
by rewrite (uniq_keys_rating uniq_rows row_in (lookup_rating_mem found)).
Qed.

(** X1. When the ratings table has at most one rating per (user, game)
    pair, the pivot of the top-level cell exists, is well shaped with
    strictly ascending labels, and its cell for a user and a game is a
    number exactly when the table holds a rating of that game by that
    user and the user occurs in the test table: it is then that rating. *)
Theorem train_p_cells (R : realFieldType) (userdata : seq (nat * nat * R))
    (testdata : seq (nat * nat)) :
  uniq [seq (userID r, gameID r) | r <- userdata] ->
  exists train_p : DataFrame R,
    [/\ pivot (traindata userdata testdata) = Ok train_p,
        well_shaped train_p,
        sorted ltn (df_index train_p) /\ sorted ltn (df_columns train_p)
      & forall u g x,
          loc train_p u g = Some x
          <-> ((u, g, x) \in userdata)
              && (u \in [seq rec_userID q | q <- testdata])].
Proof.
move=> uniq_rows.
have uniq_train :
    uniq [seq (userID r, gameID r) | r <- traindata userdata testdata].
  by apply: subseq_uniq uniq_rows; apply/map_subseq/filter_subseq.
have [train_p [piv shaped sorted_labels cells]] := pivot_round_trip uniq_train.
exists train_p; split=> // u g x.
by have := cells u g x; rewrite mem_filter andbC.
Qed.

Lemma train_p_cells_witness :
  exists train_p : DataFrame rat,
    [/\ pivot (traindata (userdata2 rat) testdata2) = Ok train_p,
        well_shaped train_p,
        sorted ltn (df_index train_p) /\ sorted ltn (df_columns train_p)
      & forall u g x,
          loc train_p u g = Some x
          <-> ((u, g, x) \in userdata2 rat)
              && (u \in [seq rec_userID q | q <- testdata2])].
Proof. exact: (@train_p_cells rat (userdata2 rat) testdata2 isT). Defined.

(** ** Neighbour estimation *)

Section EstimateMore.

Variable R : realFieldType.

Lemma sum_between (lo hi : R) (s : seq R) :
  all (fun x => lo <= x <= hi) s ->
  lo * (size s)%:R <= foldr +%R 0 s <= hi * (size s)%:R.
Proof.
elim: s => [|x s IHs] /=; first by rewrite !mulr0 lexx.
case/andP=> /andP[lo_x x_hi] /IHs/andP[lo_s s_hi].
by rewrite -natr1 !mulrDr !mulr1 ![_ * _ + _]addrC !lerD.
Qed.

Lemma mean_between (lo hi r : R) (s : seq R) :
  all (fun x => lo <= x <= hi) s -> mean s = Some r -> lo <= r <= hi.
Proof.
case: s => [|x s] // /sum_between/andP[lo_s s_hi] [<-].
have size_gt0 : 0 < (size (x :: s))%:R :> R by rewrite ltr0n.
by rewrite ler_pdivlMr // ler_pdivrMr // lo_s s_hi.
Qed.

Lemma getitem_ok (df : DataFrame R) (g : nat) (s : seq (option R)) :
  getitem df g = Ok s -> g \in df_columns df.
Proof. by rewrite /getitem; case: ifP. Qed.

Lemma series_get_ok (idx : seq nat) (s : seq (option R)) (u : nat)
    (v : option R) :
  series_get idx s u = Ok v -> u \in idx.
Proof. by rewrite /series_get; case: ifP. Qed.

(** What the inner loop returns was there at the start or is a cell of
    the column of the game. *)
Lemma collect_ratings_all (p : pred R) (train_p : DataFrame R) (game n : nat)
    (users : seq nat) (ratings res : seq R) :
  (forall u x, loc train_p u game = Some x -> p x) ->
  collect_ratings train_p game n users ratings = Ok res ->
  all p ratings -> all p res.
Proof.
move=> cells; elim: users ratings => [|u users IHu] ratings /=.
  by case=> <-.
inv_bind=> s col; inv_bind=> v cell.
have := series_getitem (series_get_ok cell) (getitem_ok col).
rewrite col /= cell => -[v_loc]; case: v v_loc {cell} => [x|] v_loc; last first.
  exact: IHu.
have all_rcons acc : all p acc -> all p (rcons acc x).
  by rewrite all_rcons => ->; rewrite andbT; apply: (cells u).
case: ifP => _; first by case=> <-; apply: all_rcons.
by move=> /IHu collect /all_rcons; apply: collect.
Qed.

(** A game that is not a column stops the inner loop at the first user
    it visits. *)
Lemma collect_ratings_no_column (train_p : DataFrame R) (game n : nat)
    (u : nat) (users : seq nat) (ratings : seq R) :
  game \notin df_columns train_p ->
  collect_ratings train_p game n (u :: users) ratings = Raise KeyError.
Proof. by rewrite /= /getitem => /negbTE ->. Qed.

(** X4. Whatever the embedding and the sorter, an estimate that is a
    number lies between any two bounds of the ratings of the game that
    are not NaN in [train_p]. *)
Theorem estimate_between (argsort : seq R -> seq nat) (coords : seq (seq R))
    (train_p : DataFrame R) (n : nat) (rec : nat * nat) (lo hi r : R) :
  (forall u x, loc train_p u (rec_gameID rec) = Some x -> lo <= x <= hi) ->
  estimate_one argsort coords train_p n rec = Ok (Some r) ->
  lo <= r <= hi.
Proof.
move=> cells; rewrite /estimate_one; inv_bind=> i _; inv_bind=> users _.
inv_bind=> ratings collect [mean_r].
by apply: mean_between mean_r; apply: collect_ratings_all cells collect _.
Qed.

End EstimateMore.

Lemma estimate_between_witness :
  (1%:Q : rat) <= 7%:Q <= 10%:Q.
Proof.
apply: (@estimate_between rat (@stable_argsort rat) one_coord one_user 1
          (1%N, 1%N) 1%:Q 10%:Q 7%:Q).
  by move=> [|[|u]] x //= [<-].
by rewrite (_ : Some 7%:Q = mean [:: 7%:Q]) //; apply/eqP.
Defined.

Section RankedMore.

Variable R : realFieldType.
Variable argsort : seq R -> seq nat.
Hypothesis argsort_ok : argsort_spec argsort.
Variables (coords : seq (seq R)) (train_p : DataFrame R).
Hypothesis same_rows : size coords = size (df_index train_p).

Lemma ranked_ratings_perm (userindex game : nat) :
  perm_eq (ranked_ratings argsort coords train_p userindex game)
    (pmap (fun u => loc train_p u game) (df_index train_p)).
Proof. exact/perm_pmap/ranked_users_perm. Qed.

(** The query user is the first of its ranking when every other user is
    at a positive distance. *)
Lemma ranking_self_first (userindex : nat) :
  (userindex < size coords)%N ->
  (forall i, (i < size coords)%N -> i != userindex ->
     0 < nth 0 (cdist (nth [::] coords userindex) coords) i) ->
  exists rest, ranking argsort coords userindex = userindex :: rest.
Proof.
move=> lt_u apart; set dists := cdist _ _ in apart.
have self_in : userindex \in ranking argsort coords userindex.
  by rewrite mem_ranking.
have sorted_ind := ranking_sorted argsort_ok coords userindex.
case ind: (ranking _ _ _) self_in sorted_ind => [|h rest] // self_in.
rewrite /= (path_sortedE (@key_leq_trans _ _)) => /andP[/allP le_h _].
exists rest; congr (_ :: _); apply/eqP; apply: contraTT self_in => h_neq.
rewrite in_cons eq_sym (negPf h_neq) /=; apply/negP => /le_h.
have lt_h : (h < size coords)%N.
  by rewrite -(mem_ranking argsort_ok coords userindex) ind mem_head.
rewrite /key_leq [X in _ <= X](nth_map [::]) // sqdist_self leNgt.
by rewrite -/dists apart.
Qed.

End RankedMore.

(** X2. On a pivot every column holds a rating, so a query whose user is
    a row and whose game is a column of the pivot itself never gets NaN:
    its estimate is a number. *)
Theorem pivot_estimate_number (R : realFieldType)
    (argsort : seq R -> seq nat) (rows : seq (nat * nat * R))
    (coords : seq (seq R)) (train_p : DataFrame R) (n : nat)
    (rec : nat * nat) :
  argsort_spec argsort -> pivot rows = Ok train_p ->
  size coords = size (df_index train_p) ->
  rec_userID rec \in df_index train_p ->
  rec_gameID rec \in df_columns train_p ->
  exists r, estimate_one argsort coords train_p n rec = Ok (Some r).
Proof.
move=> argsort_ok piv same_rows u_in g_in.
rewrite (estimate_one_ok argsort_ok same_rows n u_in g_in).
set found := ranked_ratings _ _ _ _ _.
suff : found != [::].
  rewrite -(mean_eq_None found n).
  by case: (mean _) => [r|] // _; exists r.
have [idx cols _] := pivot_ok piv.
move: (g_in); rewrite cols mem_labels => /mapP[[[u g] x] row_in g_eq].
have u0_in : u \in df_index train_p.
  by rewrite idx mem_labels; apply/mapP; exists (u, g, x).
have cell : isSome (loc train_p u (rec_gameID rec)).
  rewrite (loc_pivot piv) // lookup_rating_observed g_eq.
  by apply/mapP; exists (u, g, x).
have : odflt 0 (loc train_p u (rec_gameID rec)) \in found.
  rewrite (perm_mem (ranked_ratings_perm argsort_ok same_rows _ _)) mem_pmap.
  by apply/mapP; exists u => //; case: (loc _ _ _) cell.
by case: found.
Qed.

Lemma pivot_estimate_number_witness :
  exists r, estimate_one (@stable_argsort rat) apart_coords
              (mkDataFrame [:: 1%N; 2%N] [:: 1%N; 2%N]
                 [:: [:: Some 8%:R; None]; [:: None; Some 3%:R]])
              1 (1%N, 2%N) = Ok (Some r).
Proof.
exact: (@pivot_estimate_number rat _ (userdata2 rat) apart_coords _ 1
          (1%N, 2%N) (@stable_argsort_spec rat) erefl erefl isT isT).
Defined.

(** X3. When at least as many neighbours are asked for as there are
    users, the embedding and the sorter have no effect: the estimate is
    the mean of all the ratings of the game that are not NaN. *)
Theorem estimate_whole_column (R : realFieldType)
    (argsort : seq R -> seq nat) (coords : seq (seq R))
    (train_p : DataFrame R) (n : nat) (rec : nat * nat) :
  argsort_spec argsort -> size coords = size (df_index train_p) ->
  rec_userID rec \in df_index train_p ->
  rec_gameID rec \in df_columns train_p ->
  (size (df_index train_p) <= n)%N ->
  estimate_one argsort coords train_p n rec
  = Ok (mean (pmap (fun u => loc train_p u (rec_gameID rec))
                (df_index train_p))).
Proof.
move=> argsort_ok same_rows u_in g_in le_n.
rewrite (estimate_one_ok argsort_ok same_rows n u_in g_in).
have found_perm := ranked_ratings_perm argsort_ok same_rows
  (index (rec_userID rec) (df_index train_p)) (rec_gameID rec).
set found := ranked_ratings _ _ _ _ _ in found_perm *.
have le_size : (size found <= maxn 1 n)%N.
  rewrite (perm_size found_perm) size_pmap (leq_trans (count_size _ _)) //.
  by rewrite (leq_trans le_n) // leq_maxr.
by rewrite (take_oversize le_size); congr (Ok _); apply: mean_perm.
Qed.

Lemma estimate_whole_column_witness :
  estimate_one (@stable_argsort rat) apart_coords apart 2 (1%N, 2%N)
  = Ok (mean (pmap (fun u => loc apart u 2) [:: 1%N; 2%N])).
Proof.
exact: (@estimate_whole_column rat _ apart_coords apart 2 (1%N, 2%N)
          (@stable_argsort_spec rat) erefl isT isT isT).
Defined.

(** X5. A user whose own rating of the game is in [train_p] and who
    shares its point of the embedding with nobody gets that rating back
    when one neighbour (or none) is asked for. *)
Theorem estimate_own_rating (R : realFieldType)
    (argsort : seq R -> seq nat) (coords : seq (seq R))
    (train_p : DataFrame R) (n : nat) (rec : nat * nat) (x : R) :
  argsort_spec argsort -> size coords = size (df_index train_p) ->
  rec_userID rec \in df_index train_p ->
  rec_gameID rec \in df_columns train_p ->
  (forall i, (i < size coords)%N ->
     i != index (rec_userID rec) (df_index train_p) ->
     0 < nth 0 (cdist (nth [::] coords
                         (index (rec_userID rec) (df_index train_p)))
                  coords) i) ->
  loc train_p (rec_userID rec) (rec_gameID rec) = Some x ->
  (n <= 1)%N ->
  estimate_one argsort coords train_p n rec = Ok (Some x).
Proof.
move=> argsort_ok same_rows u_in g_in alone cell le_n.
rewrite (estimate_one_ok argsort_ok same_rows n u_in g_in).
have lt_u : (index (rec_userID rec) (df_index train_p) < size coords)%N.
  by rewrite same_rows index_mem.
have [rest ind] := ranking_self_first argsort_ok lt_u alone.
rewrite /ranked_ratings /ranked_users ind /= nth_index // cell.
by rewrite (maxn_idPl le_n) /= take0 /= addr0 divr1.
Qed.

Lemma estimate_own_rating_witness :
  estimate_one (@stable_argsort rat) apart_coords apart 1 (1%N, 1%N)
  = Ok (Some 8%:Q).
Proof.
apply: (@estimate_own_rating rat _ apart_coords apart 1 (1%N, 1%N) 8%:Q
          (@stable_argsort_spec rat) erefl isT isT) => //.
by move=> [|[|i]].
Defined.

(** X6. An embedding whose number of rows is not the number of users
    makes the query of a known user raise [IndexError]: when it is too
    short to hold the row of the user, and whenever it is longer than the
    row index. *)
Theorem estimate_index_error (R : realFieldType)
    (argsort : seq R -> seq nat) (coords : seq (seq R))
    (train_p : DataFrame R) (n : nat) (rec : nat * nat) :
  argsort_spec argsort -> rec_userID rec \in df_index train_p ->
  (size coords <= index (rec_userID rec) (df_index train_p))%N
  || (size (df_index train_p) < size coords)%N ->
  estimate_one argsort coords train_p n rec = Raise IndexError.
Proof.
move=> argsort_ok u_in bad; rewrite /estimate_one /get_loc u_in /= /neighbors.
rewrite /row_at; move: bad.
case: (ltnP (index (rec_userID rec) (df_index train_p)) (size coords)) => //=.
move=> lt_u longer; rewrite take_labels_raise //; apply/allPn.
exists (size (df_index train_p)); last by rewrite ltnn.
by rewrite -/(ranking argsort coords _) mem_ranking.
Qed.

Lemma estimate_index_error_witness :
  estimate_one (@stable_argsort rat) twin_coords one_user 1 (1%N, 1%N)
  = Raise IndexError.
Proof.
exact: (@estimate_index_error rat _ twin_coords one_user 1 (1%N, 1%N)
          (@stable_argsort_spec rat) isT isT).
Defined.


(** ** The top-level cell and the submission *)

Lemma mapM_size (T U : Type) (f : T -> result U) (s : seq T) (r : seq U) :
  mapM f s = Ok r -> size r = size s.
Proof.
elim: s r => [|x s IHs] r /=; first by case=> <-.
by inv_bind=> y _; inv_bind=> ys /IHs <- [<-].
Qed.

Lemma mapM_all (T : eqType) (U : Type) (p : pred U) (f : T -> result U)
    (s : seq T) (r : seq U) :
  {in s, forall x y, f x = Ok y -> p y} -> mapM f s = Ok r -> all p r.
Proof.
elim: s r => [|x s IHs] r /= fp; first by case=> <-.
inv_bind=> y fx; inv_bind=> ys /IHs all_ys [<-] /=.
rewrite (fp x) ?mem_head //= all_ys // => z z_in.
by apply: fp; rewrite in_cons z_in orbT.
Qed.

Lemma mapM_raise_with (T : eqType) (U : Type) (e : exn) (f : T -> result U)
    (s : seq T) :
  {in s, forall x, ~~ is_ok (f x) -> f x = Raise e} ->
  has (fun x => ~~ is_ok (f x)) s -> mapM f s = Raise e.
Proof.
elim: s => [|x s IHs] //= fe.
case fx: (f x) (fe x (mem_head _ _)) => [y|e'] /= raises bad.
  rewrite IHs // => z z_in; apply: fe.
  by rewrite in_cons z_in orbT.
by case: (raises isT) => ->.
Qed.

Lemma loc_all_cells (R : realFieldType) (p : pred (option R))
    (df : DataFrame R) (u g : nat) (x : R) :
  all_cells p df -> loc df u g = Some x -> p (Some x).
Proof.
move=> /allP cells; rewrite /loc /iat.
set i := index u _; set j := index g _.
case: (ltnP i (size (df_values df))) => [lt_i|le_i]; last first.
  by rewrite (nth_default _ le_i) nth_nil.
have /allP row := cells _ (mem_nth [::] lt_i).
case: (ltnP j (size (nth [::] (df_values df) i))) => [lt_j <-|le_j].
  exact/row/mem_nth.
by rewrite (nth_default _ le_j).
Qed.

Section Served.

Variable R : realFieldType.
Variable argsort : seq R -> seq nat.
Hypothesis argsort_ok : argsort_spec argsort.
Variables (coords : seq (seq R)) (train_p : DataFrame R).
Hypothesis same_rows : size coords = size (df_index train_p).

Lemma estimate_one_no_column (n : nat) (rec : nat * nat) :
  rec_userID rec \in df_index train_p ->
  rec_gameID rec \notin df_columns train_p ->
  estimate_one argsort coords train_p n rec = Raise KeyError.
Proof.
move=> u_in g_notin; rewrite /estimate_one /get_loc u_in /=.
rewrite neighbors_ok ?same_rows ?index_mem //=.
have := perm_size (ranked_users_perm argsort_ok same_rows
                     (index (rec_userID rec) (df_index train_p))).
case: (ranked_users _ _ _ _) => [|v users] /=.
  by case: (df_index train_p) u_in.
by rewrite /getitem (negPf g_notin).
Qed.

(** A query is served exactly when its user is a row and its game a
    column. *)
Lemma estimate_one_served (n : nat) (rec : nat * nat) :
  is_ok (estimate_one argsort coords train_p n rec)
  = (rec_userID rec \in df_index train_p)
    && (rec_gameID rec \in df_columns train_p).
Proof.
case u_in: (_ \in df_index _); last first.
  by rewrite estimate_one_absent_user ?u_in.
case g_in: (_ \in df_columns _); first by rewrite estimate_one_ok.
by rewrite estimate_one_no_column ?g_in.
Qed.

End Served.

Lemma is_ok_mapM (T U : Type) (f : T -> result U) (s : seq T) :
  is_ok (mapM f s) = all (fun x => is_ok (f x)) s.
Proof.
elim: s => [|x s IHs] //=; case: (f x) => [y|e] //=.
by rewrite -IHs; case: (mapM f s).
Qed.

(** X7. With one embedding row per user, a batch returns exactly when
    the user of every query is a row and the game of every query is a
    column of [train_p]; it then holds one estimate per query. *)
Theorem estimate_ratings_served (R : realFieldType)
    (argsort : seq R -> seq nat) (testdata : seq (nat * nat))
    (coords : seq (seq R)) (train_p : DataFrame R) (n : nat) :
  argsort_spec argsort -> size coords = size (df_index train_p) ->
  is_ok (estimate_ratings argsort testdata coords train_p n)
  = all (fun rec => (rec_userID rec \in df_index train_p)
                    && (rec_gameID rec \in df_columns train_p)) testdata
  /\ forall ests,
       estimate_ratings argsort testdata coords train_p n = Ok ests ->
       size ests = size testdata.
Proof.
move=> argsort_ok same_rows; split; last by move=> ests /mapM_size.
rewrite /estimate_ratings is_ok_mapM; apply: eq_all => rec.
exact: estimate_one_served.
Qed.

Lemma estimate_ratings_served_witness :
  is_ok (estimate_ratings (@stable_argsort rat) [:: (1%N, 2%N); (2%N, 1%N)]
           apart_coords apart 1)
  = all (fun rec => (rec_userID rec \in [:: 1%N; 2%N])
                    && (rec_gameID rec \in [:: 1%N; 2%N]))
      [:: (1%N, 2%N); (2%N, 1%N)].
Proof.
by have [] := @estimate_ratings_served rat _ [:: (1%N, 2%N); (2%N, 1%N)]
                apart_coords apart 1 (@stable_argsort_spec rat) erefl.
Defined.

Section Cell.

Variable R : realFieldType.
Variable fit_transform : nat -> DataFrame R -> result (seq (seq R)).
Variable argsort : seq R -> seq nat.
Variable rand : nat -> forall a b : nat, 'M[R]_(a, b).
Variable userdata : seq (nat * nat * R).
Variable testdata : seq (nat * nat).

(** What the cell has computed when it returns estimates. *)
Lemma ratings_est_inv (ests : seq (option R)) :
  ratings_est fit_transform argsort rand userdata testdata = Ok ests ->
  exists train_p
         (Qh : 'M[R]_(size (df_index train_p), size (df_columns train_p)))
         coords,
    [/\ pivot (traindata userdata testdata) = Ok train_p,
        fit_transform numdims
          (clip_lower 1 (clip_upper 10%:R (frame_of_matrix Qh))) = Ok coords
      & estimate_ratings argsort (testdata_filt userdata testdata) coords
          (clip_lower 1 (clip_upper 10%:R (frame_of_matrix Qh)))
          numneighbors2use = Ok ests].
Proof.
rewrite /ratings_est; inv_bind=> train_p piv.
have [Qh ->] := train_p_filled_ok rand train_p; rewrite /=.
by inv_bind=> coords fit est; exists train_p, Qh, coords.
Qed.

Lemma testdata_filt_in_index (train_p : DataFrame R) (rec : nat * nat) :
  pivot (traindata userdata testdata) = Ok train_p ->
  rec \in testdata_filt userdata testdata ->
  rec_userID rec \in df_index train_p.
Proof.
case/pivot_ok=> -> _ _; rewrite mem_testdata_filt => /andP[rec_in u_in].
by rewrite mem_labels mem_traindata_users u_in; apply: map_f.
Qed.

End Cell.

(** X8. The submission cell never fails on its own: it returns exactly
    when the estimates were computed, and its table then has the kept
    test rows, in their order, each with the estimate of its query. *)
Theorem test_pred_rows (R : realFieldType)
    (fit_transform : nat -> DataFrame R -> result (seq (seq R)))
    (argsort : seq R -> seq nat)
    (rand : nat -> forall a b : nat, 'M[R]_(a, b))
    (userdata : seq (nat * nat * R)) (testdata : seq (nat * nat)) :
  is_ok (test_pred fit_transform argsort rand userdata testdata)
  = is_ok (ratings_est fit_transform argsort rand userdata testdata)
  /\ forall rows,
       test_pred fit_transform argsort rand userdata testdata = Ok rows ->
       unzip1 rows = testdata_filt userdata testdata
       /\ ratings_est fit_transform argsort rand userdata testdata
          = Ok (unzip2 rows).
Proof.
rewrite /test_pred.
case est: (ratings_est _ _ _ _ _) => [ests|e] /=; last by split.
have [train_p [Qh [coords [_ _ /mapM_size size_ests]]]] := ratings_est_inv est.
rewrite /assign_rating size_ests eqxx; split=> // rows [<-].
by rewrite unzip1_zip ?unzip2_zip ?size_ests.
Qed.

(** X9. With an ascending sorter and one embedding row per user, every
    estimate that the top-level cell returns is a number between 1 and
    10: none is NaN. *)
Theorem ratings_est_in_range (R : realFieldType)
    (fit_transform : nat -> DataFrame R -> result (seq (seq R)))
    (argsort : seq R -> seq nat)
    (rand : nat -> forall a b : nat, 'M[R]_(a, b))
    (userdata : seq (nat * nat * R)) (testdata : seq (nat * nat)) :
  argsort_spec argsort -> fit_transform_spec fit_transform ->
  if ratings_est fit_transform argsort rand userdata testdata is Ok ests
  then all (fun e => if e is Some v then 1 <= v <= 10%:R else false) ests
  else true.
Proof.
move=> argsort_ok fit_ok.
case est: (ratings_est _ _ _ _ _) => [ests|//].
have [train_p [Qh [coords [piv fit]]]] := ratings_est_inv est.
set filled := clip_lower _ _ in fit *.
have in_range := clip_frame_of_matrix Qh; rewrite -/filled in in_range.
have no_nan : all_cells isSome filled by apply: clip_frame_no_nan.
have shaped : well_shaped filled by apply: clip_frame_shaped.
have same_rows : size coords = size (df_index filled).
  by rewrite (fit_ok _ _ _ fit) (eqP (proj1 (andP shaped))).
apply: mapM_all => rec _ e served.
have := estimate_one_served argsort_ok same_rows numneighbors2use rec.
rewrite served => /esym/andP[u_in g_in].
move: served; rewrite (estimate_one_ok argsort_ok same_rows _ u_in g_in).
set found := ranked_ratings _ _ _ _ _ => -[mean_e].
have all_found : all (fun x => 1 <= x <= 10%:R) found.
  apply/allP => x; rewrite mem_pmap => /mapP[u _ cell].
  exact: (loc_all_cells in_range (esym cell)).
have found_neq : found != [::].
  rewrite /found ranked_ratings_filled // -size_eq0 size_map.
  rewrite (perm_size (ranked_users_perm argsort_ok same_rows _)) size_eq0.
  by case: (df_index filled) u_in.
move: found_neq; rewrite -(mean_eq_None found numneighbors2use) mean_e.
case: e mean_e => [r|] // mean_r _; apply: mean_between mean_r.
by apply/allP => x /mem_take/(allP all_found).
Qed.

Lemma ratings_est_in_range_witness :
  if ratings_est (@first_columns rat) (@stable_argsort rat) (@zero_rand rat)
       (userdata5 rat) testdata5 is Ok ests
  then all (fun e => if e is Some v then 1 <= v <= 10%:R else false) ests
  else true.
Proof.
exact: (ratings_est_in_range (@zero_rand rat) (userdata5 rat) testdata5
          (@stable_argsort_spec rat) (@first_columns_spec rat)).
Defined.

(** X10. A kept query about a game that none of the training users
    rated stops the top-level cell: once the embedding is computed it
    raises [KeyError] and no estimate is returned. *)
Theorem ratings_est_unrated_game (R : realFieldType)
    (fit_transform : nat -> DataFrame R -> result (seq (seq R)))
    (argsort : seq R -> seq nat)
    (rand : nat -> forall a b : nat, 'M[R]_(a, b))
    (userdata : seq (nat * nat * R)) (testdata : seq (nat * nat))
    (train_p : DataFrame R) :
  argsort_spec argsort -> fit_transform_spec fit_transform ->
  pivot (traindata userdata testdata) = Ok train_p ->
  has (fun rec => rec_gameID rec \notin df_columns train_p)
    (testdata_filt userdata testdata) ->
  exists2 filled,
    train_p_filled rand train_p = Ok filled
    & ratings_est fit_transform argsort rand userdata testdata
      = (coords <~ fit_transform numdims filled ;; Raise KeyError).
Proof.
move=> argsort_ok fit_ok piv /hasP[bad bad_in g_notin].
have [Qh fill] := train_p_filled_ok rand train_p.
set filled := clip_lower _ _ in fill; exists filled => //.
rewrite /ratings_est piv /= fill /=.
case fit: (fit_transform numdims filled) => [coords|//] /=.
have shaped : well_shaped filled by apply: clip_frame_shaped.
have same_rows : size coords = size (df_index filled).
  by rewrite (fit_ok _ _ _ fit) (eqP (proj1 (andP shaped))).
have served := estimate_one_served argsort_ok same_rows numneighbors2use.
apply: mapM_raise_with => [rec rec_in|]; last first.
  by apply/hasP; exists bad; rewrite // served (negPf g_notin) andbF.
have u_in : rec_userID rec \in df_index filled.
  exact: testdata_filt_in_index piv rec_in.
rewrite served u_in /= => g_out.
exact: estimate_one_no_column.
Qed.

Lemma ratings_est_unrated_game_witness :
  exists2 filled,
    train_p_filled (@zero_rand rat)
      (mkDataFrame [:: 1%N] [:: 1%N] [:: [:: Some 8%:R]]) = Ok filled
    & ratings_est (@first_columns rat) (@stable_argsort rat) (@zero_rand rat)
        (userdata2 rat) [:: (1%N, 2%N)]
      = (coords <~ first_columns numdims filled ;; Raise KeyError).
Proof.
exact: (@ratings_est_unrated_game rat _ _ (@zero_rand rat) (userdata2 rat)
          [:: (1%N, 2%N)] _ (@stable_argsort_spec rat)
          (@first_columns_spec rat) erefl isT).
Defined.

(** ** Alternating least squares *)

Section ALSMore.

Variable R : realFieldType.
Variables (m n k : nat) (lam : R) (Q W : 'M[R]_(m, n)).

(** The loop over user rows, in closed form: it raises as soon as one
    system is singular, and otherwise every visited row is the solution
    of its system. *)
Lemma update_users_closed (Y : 'M[R]_(k, n)) (s : seq 'I_m)
    (X : 'M[R]_(m, k)) :
  foldM (update_user lam Q W Y) X s
  = if all (fun u => user_lhs lam W Y u \in unitmx) s
    then Ok (\matrix_(i, j)
               if i \in s
               then (invmx (user_lhs lam W Y i) *m user_rhs Q W Y i) j 0
               else X i j)
    else Raise LinAlgError.
Proof.
elim: s X => [|u s IHs] X /=; first by congr (Ok _); apply/matrixP=> i j; rewrite mxE.
rewrite {1}/update_user /solve; case: ifP => //= _; rewrite IHs.
case: ifP => // _; congr (Ok _); apply/matrixP=> i j; rewrite !mxE in_cons.
by case: (i \in s); rewrite ?orbT //= orbF; case: eqP => [->|//]; rewrite ?mxE.
Qed.

Lemma update_items_closed (X : 'M[R]_(m, k)) (s : seq 'I_n)
    (Y : 'M[R]_(k, n)) :
  foldM (update_item lam Q W X) Y s
  = if all (fun i => item_lhs lam W X i \in unitmx) s
    then Ok (\matrix_(a, j)
               if j \in s
               then (invmx (item_lhs lam W X j) *m item_rhs Q W X j) a 0
               else Y a j)
    else Raise LinAlgError.
Proof.
elim: s Y => [|i s IHs] Y /=; first by congr (Ok _); apply/matrixP=> a j; rewrite mxE.
rewrite {1}/update_item /solve; case: ifP => //= _; rewrite IHs.
case: ifP => // _; congr (Ok _); apply/matrixP=> a j; rewrite !mxE in_cons.
by case: (j \in s); rewrite ?orbT //= orbF; case: eqP => [->|//].
Qed.

(** The [X] that a weighted pass starts from is overwritten before it is
    read. *)
Lemma update_users_start (X1 X2 : 'M[R]_(m, k)) (Y : 'M[R]_(k, n)) :
  update_users lam Q W Y X1 = update_users lam Q W Y X2.
Proof.
rewrite /update_users !update_users_closed; case: ifP => // _.
by congr (Ok _); apply/matrixP=> i j; rewrite !mxE mem_enum.
Qed.

Lemma weighted_step_start (X1 X2 : 'M[R]_(m, k)) (Y : 'M[R]_(k, n)) :
  weighted_step lam Q W (X1, Y) = weighted_step lam Q W (X2, Y).
Proof. by rewrite /weighted_step /= (update_users_start X1 X2). Qed.

Lemma weighted_step_raise (XY : 'M[R]_(m, k) * 'M[R]_(k, n)) (u : 'I_m) :
  user_lhs lam W XY.2 u \notin unitmx ->
  weighted_step lam Q W XY = Raise LinAlgError.
Proof.
move=> singular; rewrite /weighted_step /update_users update_users_closed.
by rewrite (_ : all _ _ = false) //; apply/allPn; exists u; rewrite ?mem_enum.
Qed.

Lemma unweighted_step_update (XY XY' : 'M[R]_(m, k) * 'M[R]_(k, n)) :
  unweighted_step lam Q XY = Ok XY' -> unweighted_update lam Q XY XY'.
Proof.
rewrite /unweighted_step; inv_bind=> Xt /solve_ok[unit_Y solved_X] /=.
inv_bind=> Y' /solve_ok[unit_X solved_Y] [<-] /=.
by split=> //=; rewrite trmxK.
Qed.

End ALSMore.

(** X11. In unweighted mode every pass of the loop of [do_ALS] sets [X]
    to the transposed solution of [(Y Y^T + lambda I) X^T = Y Q^T] and
    then [Y] to the solution of [(X^T X + lambda I) Y = X^T Q], on all
    the cells of [Q], its zeros included; the completed matrix is the
    product of the returned factors, and the call returns for every
    number of passes when [lambda] is positive. *)
Theorem do_ALS_unweighted_updates (R : realFieldType) (m n k : nat)
    (Q : 'M[R]_(m, n)) (N : nat) (lam : R) (verbose : bool)
    (rand_X : 'M[R]_(m, k)) (rand_Y : 'M[R]_(k, n)) :
  (0 < lam -> is_ok (do_ALS Q N lam false verbose rand_X rand_Y))
  /\ forall Qh X Y errs,
       do_ALS Q N lam false verbose rand_X rand_Y = Ok (Qh, X, Y, errs) ->
       Qh = X *m Y
       /\ exists tr : seq ('M[R]_(m, k) * 'M[R]_(k, n)),
            [/\ size tr = N,
                last (5%:R *: rand_X, 5%:R *: rand_Y) tr = (X, Y)
              & forall d i, (i < N)%N ->
                  unweighted_update lam Q
                    (nth d ((5%:R *: rand_X, 5%:R *: rand_Y) :: tr) i)
                    (nth d ((5%:R *: rand_X, 5%:R *: rand_Y) :: tr) i.+1)].
Proof.
split=> [lam_gt0|Qh X Y errs].
  by apply: do_ALS_total => //; rewrite orbT.
case/do_ALS_run=> tr [-> size_tr last_tr steps _]; split=> //.
exists tr; split=> // d i lt_iN.
exact/unweighted_step_update/steps.
Qed.

Lemma do_ALS_unweighted_updates_witness :
  is_ok (do_ALS (0 : 'M[rat]_(1, 1)) 0 1 false true
           (0 : 'M[rat]_(1, 1)) (0 : 'M[rat]_(1, 1))).
Proof.
exact: (proj1 (do_ALS_unweighted_updates 0 0 1 true 0 0) ltr01).
Defined.

(** X12. The recorded error is never negative, and it is zero exactly
    when the product of the factors equals [Q] on every cell whose
    weight is not zero. *)
Theorem get_error_zero (R : realFieldType) (m n k : nat)
    (Q : 'M[R]_(m, n)) (X : 'M[R]_(m, k)) (Y : 'M[R]_(k, n))
    (W : 'M[R]_(m, n)) :
  0 <= get_error Q X Y W
  /\ (get_error Q X Y W = 0
      <-> forall i j, W i j != 0 -> (X *m Y) i j = Q i j).
Proof.
split; first exact: get_error_ge0.
have sq_ge0 i (j : 'I_n) :
    true -> 0 <= (W i j * (Q i j - (X *m Y) i j)) ^+ 2.
  by move=> _; apply: sqr_ge0.
have row_ge0 (i : 'I_m) :
    true -> 0 <= \sum_j (W i j * (Q i j - (X *m Y) i j)) ^+ 2.
  by move=> _; apply: sumr_ge0 => j _; apply: sqr_ge0.
split=> [err0 i j Wij|exact].
  have row0 := psumr_eq0P row_ge0 err0 (erefl : xpredT i).
  have /eqP := psumr_eq0P (sq_ge0 i) row0 (erefl : xpredT j).
  rewrite sqrf_eq0 mulf_eq0 (negPf Wij) /= subr_eq0 => /eqP.
  by [].
rewrite /get_error big1 // => i _; rewrite big1 // => j _.
case: (altP (W i j =P 0)) => [->|/exact ->]; first by rewrite mul0r expr0n.
by rewrite subrr mulr0 expr0n.
Qed.

Lemma get_error_zero_witness :
  get_error (0 : 'M[rat]_(1, 1)) (0 : 'M[rat]_(1, 1)) (0 : 'M[rat]_(1, 1))
    (const_mx 1) = 0.
Proof.
have [_ [_ exact]] := get_error_zero (0 : 'M[rat]_(1, 1))
  (0 : 'M[rat]_(1, 1)) (0 : 'M[rat]_(1, 1)) (const_mx 1).
by apply: exact => i j _; rewrite mulmx0.
Defined.

Lemma do_ALS_errors_witness :
  exists Qh X Y errs,
    [/\ do_ALS (0 : 'M[rat]_(1, 1)) 2 1 true true
          (0 : 'M[rat]_(1, 1)) (0 : 'M[rat]_(1, 1)) = Ok (Qh, X, Y, errs),
        size errs = 2%N & all (fun e => 0 <= e) errs].
Proof. exact: (@do_ALS_errors rat 1 1 1 0 2 1 true true 0 0 ltr01 isT). Defined.

(** X14. As soon as one pass runs, the random draw for [X] has no effect
    on what [do_ALS] returns, in either mode: the first pass overwrites
    [X] before reading it. *)
Theorem do_ALS_start_X (R : realFieldType) (m n k : nat)
    (Q : 'M[R]_(m, n)) (N : nat) (lam : R) (weighted verbose : bool)
    (rand_X1 rand_X2 : 'M[R]_(m, k)) (rand_Y : 'M[R]_(k, n)) :
  (0 < N)%N ->
  do_ALS Q N lam weighted verbose rand_X1 rand_Y
  = do_ALS Q N lam weighted verbose rand_X2 rand_Y.
Proof.
case: N => [//|N] _; rewrite /do_ALS /=.
by case: weighted => /=; rewrite ?(weighted_step_start _ _ _ (5%:R *: rand_X1)
                                     (5%:R *: rand_X2)).
Qed.

Lemma do_ALS_start_X_witness :
  do_ALS (0 : 'M[rat]_(1, 1)) 1 1 true true (0 : 'M[rat]_(1, 1))
    (0 : 'M[rat]_(1, 1))
  = do_ALS (0 : 'M[rat]_(1, 1)) 1 1 true true (const_mx 1 : 'M[rat]_(1, 1))
      (0 : 'M[rat]_(1, 1)).
Proof. exact: (@do_ALS_start_X rat 1 1 1 0 1 1 true true 0 (const_mx 1) 0 isT). Defined.

Lemma weights_row0 (R : realFieldType) (m n : nat) (Q : 'M[R]_(m, n))
    (u : 'I_m) :
  (forall j, Q u j <= 2%:R^-1) -> row u (weights Q) = 0.
Proof. by move=> low; apply/rowP=> j; rewrite !mxE ltNge low. Qed.

Lemma user_rhs_row0 (R : realFieldType) (m n k : nat) (Q W : 'M[R]_(m, n))
    (Y : 'M[R]_(k, n)) (u : 'I_m) :
  row u W = 0 -> user_rhs Q W Y u = 0.
Proof. by rewrite /user_rhs => ->; rewrite raddf0 mul0mx mulmx0. Qed.

Lemma user_lhs_row0 (R : realFieldType) (m n k : nat) (lam : R)
    (W : 'M[R]_(m, n)) (Y : 'M[R]_(k, n)) (u : 'I_m) :
  row u W = 0 -> user_lhs lam W Y u = lam *: 1%:M.
Proof. by rewrite /user_lhs => ->; rewrite raddf0 mul0mx mulmx0 add0r. Qed.

(** X15. Without regularisation a user none of whose ratings exceeds
    0.5 makes the weighted call raise [LinAlgError] in its first pass:
    the system of that user is the zero matrix. *)
Theorem do_ALS_singular (R : realFieldType) (m n k : nat)
    (Q : 'M[R]_(m, n)) (N : nat) (verbose : bool)
    (rand_X : 'M[R]_(m, k)) (rand_Y : 'M[R]_(k, n)) (u : 'I_m) :
  (0 < N)%N -> (0 < k)%N -> (forall j, Q u j <= 2%:R^-1) ->
  do_ALS Q N 0 true verbose rand_X rand_Y = Raise LinAlgError.
Proof.
case: N => [//|N] _; case: k rand_X rand_Y => [//|k] rand_X rand_Y _ low.
rewrite /do_ALS /= (@weighted_step_raise _ _ _ _ _ _ _ _ u) //=.
by rewrite user_lhs_row0 ?weights_row0 // scale0r unitmxE det0 unitr0.
Qed.

Lemma do_ALS_singular_witness :
  do_ALS (0 : 'M[rat]_(1, 1)) 1 0 true true (0 : 'M[rat]_(1, 1))
    (0 : 'M[rat]_(1, 1)) = Raise LinAlgError.
Proof.
apply: (@do_ALS_singular rat 1 1 1 0 1 true 0 0 0) => // j.
by rewrite mxE.
Defined.

(** X16. With a positive [lambda] a user none of whose ratings exceeds
    0.5 ends with a zero row of factors, and so with a zero row in the
    completed matrix, whatever the other users rated. *)
Theorem do_ALS_unrated_user (R : realFieldType) (m n k : nat)
    (Q : 'M[R]_(m, n)) (N : nat) (lam : R) (verbose : bool)
    (rand_X : 'M[R]_(m, k)) (rand_Y : 'M[R]_(k, n)) (u : 'I_m) :
  0 < lam -> (0 < N)%N -> (forall j, Q u j <= 2%:R^-1) ->
  exists Qh X Y errs,
    [/\ do_ALS Q N lam true verbose rand_X rand_Y = Ok (Qh, X, Y, errs),
        row u X = 0 & row u Qh = 0].
Proof.
move=> lam_gt0 N_gt0 low.
have /is_okP[[[[Qh X] Y] errs] run] :
    is_ok (do_ALS Q N lam true verbose rand_X rand_Y).
  by apply: do_ALS_total => //; rewrite N_gt0.
have [tr [Qh_eq size_tr last_tr steps _]] := do_ALS_run run.
have row0 : row u X = 0.
  have at_N : nth (X, Y) ((5%:R *: rand_X, 5%:R *: rand_Y) :: tr) N = (X, Y).
    by rewrite -size_tr (nth_last (X, Y) (_ :: tr)) /= last_tr.
  have := steps (X, Y) N.-1; rewrite prednK // at_N => /(_ (leqnn N)).
  move=> /weighted_step_update[/(_ u)[unit_A solved] _].
  have {}solved : _ = user_rhs Q (weights Q) _ u := solved.
  move: unit_A solved; set A := _ + lam *: 1%:M => unit_A.
  rewrite /= user_rhs_row0 ?weights_row0 // => solved.
  by rewrite -[row u X]trmxK -(mulKmx unit_A (row u X)^T) solved mulmx0 trmx0.
by exists Qh, X, Y, errs; split=> //; rewrite Qh_eq row_mul row0 mul0mx.
Qed.

Lemma do_ALS_unrated_user_witness :
  exists Qh X Y errs,
    [/\ do_ALS (0 : 'M[rat]_(1, 1)) 1 1 true true (0 : 'M[rat]_(1, 1))
          (0 : 'M[rat]_(1, 1)) = Ok (Qh, X, Y, errs),
        row 0 X = 0 & row 0 Qh = 0].
Proof.
apply: (@do_ALS_unrated_user rat 1 1 1 0 1 1 true 0 0 0 ltr01 isT) => j.
by rewrite mxE.
Defined.

(** ** Descent of the weighted passes *)

Section Descent.

Variable R : realFieldType.

Section OneRow.

Variables (k n : nat) (lam : R) (Y : 'M[R]_(k, n)) (w q : 'rV[R]_n).

(** Around a solution of the system of a user the cost of that user is a
    quadratic form. *)
Lemma row_cost_shift (xs d : 'rV[R]_k) :
  (Y *m (diag_mx w *m Y^T) + lam *: 1%:M) *m xs^T = Y *m (diag_mx w *m q^T) ->
  row_cost lam Y w q (xs + d)
  = row_cost lam Y w q xs
    + d *m (Y *m (diag_mx w *m Y^T) + lam *: 1%:M) *m d^T.
Proof.
move=> normal; set rs := q - xs *m Y.
have key : Y *m diag_mx w *m rs^T = lam *: xs^T.
  rewrite /rs linearB /= trmx_mul mulmxBr -!mulmxA -normal.
  by rewrite mulmxDl -scalemxAl mul1mx !mulmxA addrC addKr.
have e1 : d *m Y *m diag_mx w *m rs^T = lam *: (d *m xs^T).
  by rewrite -!mulmxA [Y *m _]mulmxA key -scalemxAr.
have e2 : rs *m diag_mx w *m (d *m Y)^T = lam *: (xs *m d^T).
  apply: trmx_inj; rewrite [LHS]trmx_mul trmxK [(rs *m _)^T]trmx_mul.
  by rewrite tr_diag_mx !mulmxA e1 !linearZ /= trmx_mul trmxK.
have shift : q - (xs + d) *m Y = rs - d *m Y.
  by rewrite mulmxDl opprD addrA.
have rsE : q - xs *m Y = rs by [].
rewrite /row_cost shift rsE; clearbody rs.
rewrite [(rs - _)^T]linearB /= !mulmxBl !mulmxBr e2 e1.
rewrite [(xs + d)^T]linearD /= mulmxDl !mulmxDr !scalerDr.
rewrite mulmxDl -scalemxAr mulmx1 -scalemxAl.
rewrite [(d *m Y)^T]trmx_mul !mulmxA.
set a := rs *m _ *m _; set b := d *m Y *m _ *m _ *m _.
set l1 := lam *: (xs *m d^T); set l2 := lam *: (d *m xs^T).
rewrite opprB addrACA [a - l1 + _]addrACA addNr addr0.
by rewrite -[b - l2 + _]addrA addKr.
Qed.

Lemma row_cost_min (xs x : 'rV[R]_k) :
  0 <= lam -> (forall j, 0 <= w 0 j) ->
  (Y *m (diag_mx w *m Y^T) + lam *: 1%:M) *m xs^T = Y *m (diag_mx w *m q^T) ->
  (row_cost lam Y w q xs) 0 0 <= (row_cost lam Y w q x) 0 0.
Proof.
move=> lam_ge0 w_ge0 normal.
rewrite -[x](subrK xs) [x - xs + xs]addrC (row_cost_shift _ normal).
rewrite [X in _ <= X]mxE lerDl mulmxDr mulmxDl mxE addr_ge0 //.
  exact: psd_gram.
by rewrite -scalemxAr mulmx1 -scalemxAl mxE mulr_ge0 // rv_sq_ge0.
Qed.

End OneRow.

Section AllRows.

Variables (m n k : nat) (lam : R) (Q W : 'M[R]_(m, n)).
Hypothesis W_01 : forall i j, W i j * W i j = W i j.

Lemma W_01_ge0 i j : 0 <= W i j.
Proof. by rewrite -W_01 -expr2 sqr_ge0. Qed.

(** The cost is the sum of the shares of the users, plus the squares of
    [Y]. *)
Lemma objective_rows (X : 'M[R]_(m, k)) (Y : 'M[R]_(k, n)) :
  objective lam Q W X Y
  = \sum_u (row_cost lam Y (row u W) (row u Q) (row u X)) 0 0
    + lam * sqnorm Y.
Proof.
rewrite /objective mulrDr addrA; congr (_ + _).
rewrite /get_error /sqnorm mulr_sumr -big_split /=; apply: eq_bigr => u _.
rewrite mxE [X in _ = _ + X]mxE; congr (_ + lam * _); last first.
  by rewrite mxE; apply: eq_bigr => a _; rewrite !mxE expr2.
rewrite mxE; apply: eq_bigr => j _.
rewrite mul_mx_diag -row_mul !mxE exprMn expr2 W_01 expr2.
by rewrite mulrCA mulrA.
Qed.

(** Rows that solve the systems of the users make the cost as small as
    it can be for the given [Y]. *)
Lemma users_optimal (X X2 : 'M[R]_(m, k)) (Y : 'M[R]_(k, n)) :
  0 <= lam ->
  (forall u, user_lhs lam W Y u *m (row u X)^T = user_rhs Q W Y u) ->
  objective lam Q W X Y <= objective lam Q W X2 Y.
Proof.
move=> lam_ge0 solved; rewrite !objective_rows lerD2r.
apply: ler_sum => u _; apply: row_cost_min => // [j|].
  by rewrite mxE W_01_ge0.
exact: solved.
Qed.

End AllRows.

End Descent.

Section DescentSteps.

Variable R : realFieldType.
Variables (m n k : nat) (lam : R) (Q W : 'M[R]_(m, n)).

Lemma sqnorm_tr (a b : nat) (A : 'M[R]_(a, b)) : sqnorm A^T = sqnorm A.
Proof.
rewrite /sqnorm exchange_big; apply: eq_bigr => i _.
by apply: eq_bigr => j _; rewrite mxE.
Qed.

Lemma get_error_tr (X : 'M[R]_(m, k)) (Y : 'M[R]_(k, n)) :
  get_error Q^T Y^T X^T W^T = get_error Q X Y W.
Proof.
rewrite /get_error exchange_big; apply: eq_bigr => i _.
by apply: eq_bigr => j _; rewrite -trmx_mul !mxE.
Qed.

Lemma objective_tr (X : 'M[R]_(m, k)) (Y : 'M[R]_(k, n)) :
  objective lam Q^T W^T Y^T X^T = objective lam Q W X Y.
Proof. by rewrite /objective get_error_tr !sqnorm_tr [sqnorm Y + _]addrC. Qed.

Hypothesis W_01 : forall i j, W i j * W i j = W i j.
Hypothesis lam_ge0 : 0 <= lam.

(** Columns that solve the systems of the items make the cost as small
    as it can be for the given [X]. *)
Lemma items_optimal (X : 'M[R]_(m, k)) (Y Y2 : 'M[R]_(k, n)) :
  (forall i, item_lhs lam W X i *m col i Y = item_rhs Q W X i) ->
  objective lam Q W X Y <= objective lam Q W X Y2.
Proof.
move=> solved; rewrite -!objective_tr.
apply: users_optimal => // [i j|i]; first by rewrite !mxE.
rewrite /user_lhs /user_rhs trmxK !tr_row !trmxK.
exact: solved.
Qed.

(** One weighted pass does not raise the cost. *)
Lemma weighted_update_descends (XY XY' : 'M[R]_(m, k) * 'M[R]_(k, n)) :
  weighted_update lam Q W XY XY' ->
  [/\ forall X2, objective lam Q W XY'.1 XY.2 <= objective lam Q W X2 XY.2,
      forall Y2, objective lam Q W XY'.1 XY'.2 <= objective lam Q W XY'.1 Y2
    & objective lam Q W XY'.1 XY'.2 <= objective lam Q W XY.1 XY.2].
Proof.
case=> users items.
have best_X X2 : objective lam Q W XY'.1 XY.2 <= objective lam Q W X2 XY.2.
  by apply: users_optimal => // u; have [] := users u.
have best_Y Y2 : objective lam Q W XY'.1 XY'.2 <= objective lam Q W XY'.1 Y2.
  apply: items_optimal => // i; have [_] := items i.
  by rewrite /item_lhs /item_rhs -tr_col.
by split=> //; apply: le_trans (best_Y _) (best_X _).
Qed.

End DescentSteps.

Lemma weights_01 (R : realFieldType) (m n : nat) (Q : 'M[R]_(m, n)) i j :
  weights Q i j * weights Q i j = weights Q i j.
Proof. by rewrite mxE; case: ifP; rewrite ?mulr1 ?mulr0. Qed.

(** X17. One weighted pass with a positive [lambda] returns, and it
    never raises the regularised cost: the new [X] is a minimiser of the
    cost for the old [Y], and the new [Y] a minimiser for the new [X]. *)
Theorem weighted_step_descends (R : realFieldType) (m n k : nat)
    (Q : 'M[R]_(m, n)) (lam : R) (X : 'M[R]_(m, k)) (Y : 'M[R]_(k, n)) :
  0 < lam ->
  exists X' Y',
    [/\ weighted_step lam Q (weights Q) (X, Y) = Ok (X', Y'),
        forall X2, objective lam Q (weights Q) X' Y
                   <= objective lam Q (weights Q) X2 Y,
        forall Y2, objective lam Q (weights Q) X' Y'
                   <= objective lam Q (weights Q) X' Y2
      & objective lam Q (weights Q) X' Y' <= objective lam Q (weights Q) X Y].
Proof.
move=> lam_gt0.
have /is_okP[[X' Y'] step] :=
  weighted_step_total Q lam_gt0 (@weights_ge0 _ _ _ Q) (X, Y).
exists X', Y'; have [] // := weighted_update_descends (@weights_01 _ _ _ Q)
  (ltW lam_gt0) (weighted_step_update step).
Qed.

Lemma weighted_step_descends_witness :
  exists X' Y' : 'M[rat]_(1, 1),
    [/\ weighted_step 1 (0 : 'M[rat]_(1, 1)) (weights 0)
          (0 : 'M[rat]_(1, 1), 0 : 'M[rat]_(1, 1)) = Ok (X', Y'),
        forall X2 : 'M[rat]_(1, 1),
          objective 1 (0 : 'M[rat]_(1, 1)) (weights 0) X'
            (0 : 'M[rat]_(1, 1))
          <= objective 1 (0 : 'M[rat]_(1, 1)) (weights 0) X2
               (0 : 'M[rat]_(1, 1)),
        forall Y2 : 'M[rat]_(1, 1),
          objective 1 (0 : 'M[rat]_(1, 1)) (weights 0) X' Y'
          <= objective 1 (0 : 'M[rat]_(1, 1)) (weights 0) X' Y2
      & objective 1 (0 : 'M[rat]_(1, 1)) (weights 0) X' Y'
        <= objective 1 (0 : 'M[rat]_(1, 1)) (weights 0)
             (0 : 'M[rat]_(1, 1)) (0 : 'M[rat]_(1, 1))].
Proof. exact: (@weighted_step_descends rat 1 1 1 0 1 0 0 ltr01). Defined.

(** X18. A weighted call with a positive [lambda] and at least one pass
    returns factors whose regularised cost is at most that of the random
    start, and whose [Y] is a minimiser of the cost for the returned
    [X]. *)
Theorem do_ALS_descends (R : realFieldType) (m n k : nat)
    (Q : 'M[R]_(m, n)) (N : nat) (lam : R) (verbose : bool)
    (rand_X : 'M[R]_(m, k)) (rand_Y : 'M[R]_(k, n)) :
  0 < lam -> (0 < N)%N ->
  exists Qh X Y errs,
    [/\ do_ALS Q N lam true verbose rand_X rand_Y = Ok (Qh, X, Y, errs),
        objective lam Q (weights Q) X Y
        <= objective lam Q (weights Q) (5%:R *: rand_X) (5%:R *: rand_Y)
      & forall Y2, objective lam Q (weights Q) X Y
                   <= objective lam Q (weights Q) X Y2].
Proof.
move=> lam_gt0 N_gt0.
have /is_okP[[[[Qh X] Y] errs] run] :
    is_ok (do_ALS Q N lam true verbose rand_X rand_Y).
  by apply: do_ALS_total => //; rewrite N_gt0.
have [tr [_ size_tr last_tr steps _]] := do_ALS_run run.
set start := (5%:R *: rand_X, 5%:R *: rand_Y) in last_tr steps *.
have pass i : (i < N)%N ->
    weighted_update lam Q (weights Q) (nth (X, Y) (start :: tr) i)
      (nth (X, Y) (start :: tr) i.+1).
  by move=> lt_i; apply/weighted_step_update/steps.
have descends (XY XY' : 'M[R]_(m, k) * 'M[R]_(k, n))
    (upd : weighted_update lam Q (weights Q) XY XY') :=
  weighted_update_descends (@weights_01 _ _ _ Q) (ltW lam_gt0) upd.
have below i : (i <= N)%N ->
    objective lam Q (weights Q) (nth (X, Y) (start :: tr) i).1
      (nth (X, Y) (start :: tr) i).2
    <= objective lam Q (weights Q) start.1 start.2.
  elim: i => [|i IHi] // lt_i; have [_ _ down] := descends _ _ (pass i lt_i).
  exact: le_trans down (IHi (ltnW lt_i)).
have at_N : nth (X, Y) (start :: tr) N = (X, Y).
  by rewrite -size_tr (nth_last (X, Y) (_ :: tr)) /= last_tr.
exists Qh, X, Y, errs; split=> // [|Y2].
  by have := below N (leqnn N); rewrite at_N.
have := pass N.-1; rewrite prednK // at_N => /(_ (leqnn N)) /descends.
by case=> _ best _; apply: best.
Qed.

Lemma do_ALS_descends_witness :
  exists (Qh X Y : 'M[rat]_(1, 1)) (errs : seq rat),
    [/\ do_ALS (0 : 'M[rat]_(1, 1)) 1 1 true true (0 : 'M[rat]_(1, 1))
          (0 : 'M[rat]_(1, 1)) = Ok (Qh, X, Y, errs),
        objective 1 (0 : 'M[rat]_(1, 1)) (weights 0) X Y
        <= objective 1 (0 : 'M[rat]_(1, 1)) (weights 0)
             (5%:R *: (0 : 'M[rat]_(1, 1))) (5%:R *: (0 : 'M[rat]_(1, 1)))
      & forall Y2 : 'M[rat]_(1, 1),
          objective 1 (0 : 'M[rat]_(1, 1)) (weights 0) X Y
          <= objective 1 (0 : 'M[rat]_(1, 1)) (weights 0) X Y2].
Proof. exact: (@do_ALS_descends rat 1 1 1 0 1 1 true 0 0 ltr01 isT). Defined.

(** X13. A call of [do_ALS] that returns has run [N] passes and returns
    [N] errors, none of them negative, in either mode; and the call does
    return when [lambda] is positive, unless it is the weighted verbose
    call without any pass. *)
Theorem do_ALS_error_list (R : realFieldType) (m n k : nat)
    (Q : 'M[R]_(m, n)) (N : nat) (lam : R) (weighted verbose : bool)
    (rand_X : 'M[R]_(m, k)) (rand_Y : 'M[R]_(k, n)) :
  (0 < lam -> (0 < N)%N || ~~ (weighted && verbose) ->
   is_ok (do_ALS Q N lam weighted verbose rand_X rand_Y))
  /\ forall Qh X Y errs,
       do_ALS Q N lam weighted verbose rand_X rand_Y = Ok (Qh, X, Y, errs) ->
       size errs = N /\ all (fun e => 0 <= e) errs.
Proof.
split=> [lam_gt0 bound|Qh X Y errs]; first exact: do_ALS_total.
exact: do_ALS_errors_returned.
Qed.

Lemma do_ALS_error_list_witness :
  is_ok (do_ALS (0 : 'M[rat]_(1, 1)) 2 1 false true
           (0 : 'M[rat]_(1, 1)) (0 : 'M[rat]_(1, 1))).
Proof.
exact: (proj1 (do_ALS_error_list 0 2 1 false true 0 0) ltr01 isT).
Defined.
